(** * DFA alpha-1 engine: a shallow embedding of [services/dfaService.ts]

    The TypeScript module works on JavaScript [number]s, that is on IEEE 754
    binary64 values.  Its four functions are translated twice, statement by
    statement and under the same names.

    - At top level the arithmetic is exact: real numbers extended by the
      three special values a JavaScript computation can produce, [NaN],
      [+Infinity] and [-Infinity].  Rounding and overflow are not modelled
      there, and the two zeros are identified.  Everything the module
      branches on that is not a rounding matter is kept: comparisons with
      [NaN] are false, [0/0] is [NaN], [x/0] is an infinity, and [0] and
      [NaN] are falsy.  This is the reading in which the sums, means and
      least-squares lines of the method can be written down.
    - In [Module Binary64] the arithmetic is that of the engine: the
      kernel's binary64 floats, every operation rounded to nearest.  These
      definitions are executable, and a run of them is a run of the code.

    A statement whose subject is a sum, a quotient or a square root of
    measured values is a statement about the exact reading; the section on
    binary64 runs shows on concrete inputs where the engine departs from it.

    Layout: the number model, the functions of the module on exact numbers
    and on binary64, mathematical (real-valued) descriptions of what the
    specification says, and then the theorems. *)

From Stdlib Require Import Reals Lra Lia List Arith Bool.
From Stdlib Require Import NArith ZArith Strings.Byte.
From Stdlib Require Strings.String.
From Stdlib Require PrimFloat.
Import ListNotations.

Local Open Scope R_scope.

(** ** JavaScript numbers *)

Module JS.

Inductive number : Type :=
| Fin (r : R)     (* a finite value *)
| PInf            (* Infinity *)
| NInf            (* -Infinity *)
| NaN.

Definition Rltb (a b : R) : bool := if Rlt_dec a b then true else false.
Definition Reqb (a b : R) : bool := if Req_dec_T a b then true else false.

(** [x + y] *)
Definition add (x y : number) : number :=
  match x, y with
  | NaN, _ | _, NaN => NaN
  | Fin a, Fin b => Fin (a + b)
  | PInf, NInf | NInf, PInf => NaN
  | PInf, _ | _, PInf => PInf
  | NInf, _ | _, NInf => NInf
  end.

(** [x - y] *)
Definition sub (x y : number) : number :=
  match x, y with
  | NaN, _ | _, NaN => NaN
  | Fin a, Fin b => Fin (a - b)
  | PInf, PInf | NInf, NInf => NaN
  | PInf, _ | _, NInf => PInf
  | NInf, _ | _, PInf => NInf
  end.

(** The infinity of the given sign. *)
Definition signed_inf (positive : bool) : number :=
  if positive then PInf else NInf.

(** [x * y] *)
Definition mul (x y : number) : number :=
  match x, y with
  | NaN, _ | _, NaN => NaN
  | Fin a, Fin b => Fin (a * b)
  | PInf, PInf | NInf, NInf => PInf
  | PInf, NInf | NInf, PInf => NInf
  | PInf, Fin b | Fin b, PInf =>
      if Reqb b 0 then NaN else signed_inf (Rltb 0 b)
  | NInf, Fin b | Fin b, NInf =>
      if Reqb b 0 then NaN else signed_inf (Rltb b 0)
  end.

(** [x / y]; a finite non-zero value divided by zero is an infinity, and
    [0/0] is [NaN]. *)
Definition div (x y : number) : number :=
  match x, y with
  | NaN, _ | _, NaN => NaN
  | Fin a, Fin b =>
      if Reqb b 0
      then (if Reqb a 0 then NaN else signed_inf (Rltb 0 a))
      else Fin (a / b)
  | Fin _, PInf | Fin _, NInf => Fin 0
  | PInf, Fin b => signed_inf (negb (Rltb b 0))
  | NInf, Fin b => signed_inf (Rltb b 0)
  | _, _ => NaN
  end.

(** [Math.abs] *)
Definition abs (x : number) : number :=
  match x with
  | Fin a => Fin (Rabs a)
  | PInf | NInf => PInf
  | NaN => NaN
  end.

(** [Math.sqrt] *)
Definition sqrt (x : number) : number :=
  match x with
  | Fin a => if Rltb a 0 then NaN else Fin (R_sqrt.sqrt a)
  | PInf => PInf
  | NInf | NaN => NaN
  end.

(** [Math.log10] *)
Definition log10 (x : number) : number :=
  match x with
  | Fin a =>
      if Rltb a 0 then NaN
      else if Reqb a 0 then NInf
      else Fin (ln a / ln 10)
  | PInf => PInf
  | NInf | NaN => NaN
  end.

(** [x < y]: false as soon as one side is [NaN]. *)
Definition lt (x y : number) : bool :=
  match x, y with
  | NaN, _ | _, NaN => false
  | Fin a, Fin b => Rltb a b
  | NInf, NInf | PInf, _ | _, NInf => false
  | NInf, _ | _, PInf => true
  end.

(** [x > y] *)
Definition gt (x y : number) : bool := lt y x.

(** Truthiness of a number in a condition: [0] and [NaN] are falsy. *)
Definition truthy (x : number) : bool :=
  match x with
  | Fin a => negb (Reqb a 0)
  | PInf | NInf => true
  | NaN => false
  end.

(** Truthiness of a [number | null]: [null] is falsy. *)
Definition truthy_opt (o : option number) : bool :=
  match o with
  | Some x => truthy x
  | None => false
  end.

(** A [number | null] inside arithmetic: [null] counts as 0. *)
Definition to_number (o : option number) : number :=
  match o with
  | Some x => x
  | None => Fin 0
  end.

(** A length or loop index used as a number. *)
Definition of_nat (n : nat) : number := Fin (INR n).

(** [a[i]] inside arithmetic: an index past the end reads [undefined],
    which arithmetic turns into [NaN]. *)
Definition get (a : list number) (i : nat) : number := nth i a NaN.

(** [a.slice(start, end)] for [0 <= start <= end]. *)
Definition slice (a : list number) (start end_ : nat) : list number :=
  firstn (end_ - start) (skipn start a).

End JS.

Import JS.

Declare Scope js_scope.
Delimit Scope js_scope with js.
Infix "+" := add : js_scope.
Infix "-" := sub : js_scope.
Infix "*" := mul : js_scope.
Infix "/" := div : js_scope.

(** ** The module on exact numbers, function by function

    The arithmetic of these definitions is exact; the same functions on
    binary64 follow in [Module Binary64]. *)

(** *** [linearRegression] *)

Record sums : Type := MkSums
  { sumX : number; sumY : number; sumXY : number; sumXX : number }.

Record fit : Type := MkFit { slope : number; intercept : number }.

(** Body of the summation loop at index [i]. *)
Definition regression_step (x y : list number) (s : sums) (i : nat) : sums :=
  {| sumX := (sumX s + get x i)%js;
     sumY := (sumY s + get y i)%js;
     sumXY := (sumXY s + get x i * get y i)%js;
     sumXX := (sumXX s + get x i * get x i)%js |}.

Definition regression_sums (x y : list number) : sums :=
  fold_left (regression_step x y) (seq 0 (length x))
    (MkSums (Fin 0) (Fin 0) (Fin 0) (Fin 0)).

Definition linearRegression (x y : list number) : fit :=
  let n := of_nat (length x) in
  let s := regression_sums x y in
  let slope := ((n * sumXY s - sumX s * sumY s)
                / (n * sumXX s - sumX s * sumX s))%js in
  let intercept := ((sumY s - slope * sumX s) / n)%js in
  {| slope := slope; intercept := intercept |}.

(** *** [calculateF_n]

    [boxSize] is a natural number: the callers pass the sizes 4..16.  For
    [boxSize = 0] the source loops forever on a non-empty series; that case
    is outside this model, and every statement below assumes [boxSize >= 1]. *)

(** Body of the residual loop at local index [k]. *)
Definition residual_step (segmentY : list number) (f : fit)
    (totalResidualSq : number) (k : nat) : number :=
  let trend := (slope f * of_nat k + intercept f)%js in
  let residual := (get segmentY k - trend)%js in
  (totalResidualSq + residual * residual)%js.

(** Body of the box loop at box index [i]. *)
Definition box_step (integratedSeries : list number) (boxSize : nat)
    (totalResidualSq : number) (i : nat) : number :=
  let start := (i * boxSize)%nat in
  let end_ := (start + boxSize)%nat in
  let segmentY := slice integratedSeries start end_ in
  let segmentX := map of_nat (seq 0 boxSize) in
  let f := linearRegression segmentX segmentY in
  fold_left (residual_step segmentY f) (seq 0 boxSize) totalResidualSq.

Definition calculateF_n (integratedSeries : list number) (boxSize : nat)
    : number :=
  let N := length integratedSeries in
  let numBoxes := (N / boxSize)%nat in
  let totalResidualSq :=
    fold_left (box_step integratedSeries boxSize) (seq 0 numBoxes) (Fin 0) in
  JS.sqrt (totalResidualSq / of_nat (numBoxes * boxSize))%js.

(** *** [preprocessRR] *)

Definition MIN_RR : number := Fin 300.
Definition MAX_RR : number := Fin 1300.

(** [filtered[filtered.length - 1]] *)
Definition last_filtered (filtered : list number) : number :=
  last filtered NaN.

(** The value of the flag [isValid] when the handling step is reached:
    the absolute range check followed by the relative check against the
    last element of [filtered]. *)
Definition isValid (filtered : list number) (val : number) : bool :=
  let isValid := negb (lt val MIN_RR || gt val MAX_RR) in
  if isValid && (0 <? length filtered)%nat then
    let prev := last_filtered filtered in
    let diff := JS.abs (val - prev)%js in
    let percentChange := (diff / prev)%js in
    if gt percentChange (Fin (3 / 10)) then false else isValid
  else isValid.

(** The [else] branch of the handling step.  [prev] and [next] are of type
    [number | null]: [prev] is [null] while [filtered] is empty, [next] is
    the following raw sample and [null] past the end of the array.  The
    conditions [prev && next] and [prev] test truthiness. *)
Definition correct (filtered : list number) (next : option number)
    : list number :=
  let prev :=
    if (0 <? length filtered)%nat then Some (last_filtered filtered)
    else None in
  if truthy_opt prev && truthy_opt next then
    let interpolated := ((to_number prev + to_number next) / Fin 2)%js in
    filtered ++ [interpolated]
  else if truthy_opt prev then filtered ++ [to_number prev]
  else filtered.

(** One iteration of the loop. *)
Definition step (filtered : list number) (val : number)
    (next : option number) : list number :=
  if isValid filtered val then filtered ++ [val]
  else correct filtered next.

(** The loop from the current index on: [rest] is what remains of
    [rrIntervals], so its second element is [rrIntervals[i + 1]]. *)
Fixpoint loop (filtered rest : list number) : list number :=
  match rest with
  | [] => filtered
  | val :: rest' => loop (step filtered val (hd_error rest')) rest'
  end.

Definition preprocessRR (rrIntervals : list number) : list number :=
  if (length rrIntervals <? 3)%nat then rrIntervals
  else loop [] rrIntervals.

(** *** [calculateDfaAlpha1] *)

(** Step 2 of the function, the integration loop: the state is
    [currentSum] and the array [integratedSeries]. *)
Definition integrate_step (meanRR : number) (st : number * list number)
    (rr : number) : number * list number :=
  let currentSum := (fst st + (rr - meanRR))%js in
  (currentSum, snd st ++ [currentSum]).

Definition meanRR (cleanRR : list number) : number :=
  (fold_left add cleanRR (Fin 0) / of_nat (length cleanRR))%js.

Definition integrate (cleanRR : list number) : list number :=
  snd (fold_left (integrate_step (meanRR cleanRR)) cleanRR (Fin 0, [])).

Definition boxSizes : list nat :=
  [4; 5; 6; 7; 8; 9; 10; 11; 12; 13; 14; 15; 16]%nat.

(** Step 3, the loop over the box sizes: the state is the pair of arrays
    [logN] and [logFn]. *)
Definition scale_step (integratedSeries : list number)
    (st : list number * list number) (n : nat)
    : list number * list number :=
  let Fn := calculateF_n integratedSeries n in
  if gt Fn (Fin 0)
  then (fst st ++ [log10 (of_nat n)], snd st ++ [log10 Fn])
  else st.

Definition log_pairs (integratedSeries : list number)
    : list number * list number :=
  fold_left (scale_step integratedSeries) boxSizes ([], []).

(** [None] is the [null] result. *)
Definition calculateDfaAlpha1 (rrIntervals : list number) : option number :=
  let cleanRR := preprocessRR rrIntervals in
  if (length cleanRR <? 50)%nat then None
  else
    let integratedSeries := integrate cleanRR in
    let p := log_pairs integratedSeries in
    Some (slope (linearRegression (fst p) (snd p))).

(** ** The module on binary64

    The same four functions once more, statement by statement, on the
    kernel's binary64 floats: [+], [-], [*], [/], [Math.sqrt] and
    [Math.abs] are the IEEE 754 operations rounded to nearest, ties to
    even, as ECMAScript prescribes, and a comparison with [NaN] is false.
    These definitions are executable, and what a run of them gives is what
    the engine gives.  [Math.log10] is left to the implementation by
    ECMAScript ("implementation-approximated"), so it is a variable of the
    section that translates [calculateDfaAlpha1]. *)

Module Binary64.

Import PrimFloat.
Local Open Scope float_scope.

Definition number : Type := float.

(** [x < y] and [x > y] *)
Definition lt (x y : number) : bool := x <? y.
Definition gt (x y : number) : bool := y <? x.

(** Truthiness of a number in a condition: both zeros and [NaN] are
    falsy. *)
Definition truthy (x : number) : bool := negb (x =? 0) && negb (is_nan x).

(** Truthiness of a [number | null]: [null] is falsy. *)
Definition truthy_opt (o : option number) : bool :=
  match o with
  | Some x => truthy x
  | None => false
  end.

(** A [number | null] inside arithmetic: [null] counts as 0. *)
Definition to_number (o : option number) : number :=
  match o with
  | Some x => x
  | None => 0
  end.

(** A length or loop index used as a number: the counter counted up from
    0 (exact below 2^53). *)
Fixpoint of_nat (n : nat) : number :=
  match n with
  | O => 0
  | S m => of_nat m + 1
  end.

(** [a[i]] inside arithmetic: an index past the end reads [undefined],
    which arithmetic turns into [NaN]. *)
Definition get (a : list number) (i : nat) : number := nth i a nan.

(** [a.slice(start, end)] for [0 <= start <= end]. *)
Definition slice (a : list number) (start end_ : nat) : list number :=
  firstn (end_ - start) (skipn start a).

(** *** [linearRegression] *)

Record sums : Type := MkSums
  { sumX : number; sumY : number; sumXY : number; sumXX : number }.

Record fit : Type := MkFit { slope : number; intercept : number }.

Definition regression_step (x y : list number) (s : sums) (i : nat) : sums :=
  {| sumX := sumX s + get x i;
     sumY := sumY s + get y i;
     sumXY := sumXY s + get x i * get y i;
     sumXX := sumXX s + get x i * get x i |}.

Definition regression_sums (x y : list number) : sums :=
  fold_left (regression_step x y) (seq 0 (length x)) (MkSums 0 0 0 0).

Definition linearRegression (x y : list number) : fit :=
  let n := of_nat (length x) in
  let s := regression_sums x y in
  let slope := (n * sumXY s - sumX s * sumY s)
               / (n * sumXX s - sumX s * sumX s) in
  let intercept := (sumY s - slope * sumX s) / n in
  {| slope := slope; intercept := intercept |}.

(** *** [calculateF_n] *)

Definition residual_step (segmentY : list number) (f : fit)
    (totalResidualSq : number) (k : nat) : number :=
  let trend := slope f * of_nat k + intercept f in
  let residual := get segmentY k - trend in
  totalResidualSq + residual * residual.

Definition box_step (integratedSeries : list number) (boxSize : nat)
    (totalResidualSq : number) (i : nat) : number :=
  let start := (i * boxSize)%nat in
  let end_ := (start + boxSize)%nat in
  let segmentY := slice integratedSeries start end_ in
  let segmentX := map of_nat (seq 0 boxSize) in
  let f := linearRegression segmentX segmentY in
  fold_left (residual_step segmentY f) (seq 0 boxSize) totalResidualSq.

Definition calculateF_n (integratedSeries : list number) (boxSize : nat)
    : number :=
  let N := length integratedSeries in
  let numBoxes := (N / boxSize)%nat in
  let totalResidualSq :=
    fold_left (box_step integratedSeries boxSize) (seq 0 numBoxes) 0 in
  sqrt (totalResidualSq / of_nat (numBoxes * boxSize)).

(** *** [preprocessRR] *)

Definition MIN_RR : number := 300.
Definition MAX_RR : number := 1300.

(** The literal [0.3]: the binary64 value nearest to 3/10. *)
Definition three_tenths : number := 0x1.3333333333333p-2.

(** [filtered[filtered.length - 1]] *)
Definition last_filtered (filtered : list number) : number :=
  last filtered nan.

Definition isValid (filtered : list number) (val : number) : bool :=
  let isValid := negb (lt val MIN_RR || gt val MAX_RR) in
  if isValid && (0 <? length filtered)%nat then
    let prev := last_filtered filtered in
    let diff := abs (val - prev) in
    let percentChange := diff / prev in
    if gt percentChange three_tenths then false else isValid
  else isValid.

Definition correct (filtered : list number) (next : option number)
    : list number :=
  let prev :=
    if (0 <? length filtered)%nat then Some (last_filtered filtered)
    else None in
  if truthy_opt prev && truthy_opt next then
    let interpolated := (to_number prev + to_number next) / 2 in
    filtered ++ [interpolated]
  else if truthy_opt prev then filtered ++ [to_number prev]
  else filtered.

Definition step (filtered : list number) (val : number)
    (next : option number) : list number :=
  if isValid filtered val then filtered ++ [val]
  else correct filtered next.

Fixpoint loop (filtered rest : list number) : list number :=
  match rest with
  | [] => filtered
  | val :: rest' => loop (step filtered val (hd_error rest')) rest'
  end.

Definition preprocessRR (rrIntervals : list number) : list number :=
  if (length rrIntervals <? 3)%nat then rrIntervals
  else loop [] rrIntervals.

(** *** [calculateDfaAlpha1] *)

Definition integrate_step (meanRR : number) (st : number * list number)
    (rr : number) : number * list number :=
  let currentSum := fst st + (rr - meanRR) in
  (currentSum, snd st ++ [currentSum]).

Definition meanRR (cleanRR : list number) : number :=
  fold_left add cleanRR 0 / of_nat (length cleanRR).

Definition integrate (cleanRR : list number) : list number :=
  snd (fold_left (integrate_step (meanRR cleanRR)) cleanRR (0, [])).

Definition boxSizes : list nat :=
  [4; 5; 6; 7; 8; 9; 10; 11; 12; 13; 14; 15; 16]%nat.

Section Scaling.

(** [Math.log10] *)
Variable log10 : number -> number.

Definition scale_step (integratedSeries : list number)
    (st : list number * list number) (n : nat)
    : list number * list number :=
  let Fn := calculateF_n integratedSeries n in
  if gt Fn 0
  then (fst st ++ [log10 (of_nat n)], snd st ++ [log10 Fn])
  else st.

Definition log_pairs (integratedSeries : list number)
    : list number * list number :=
  fold_left (scale_step integratedSeries) boxSizes ([], []).

(** [None] is the [null] result. *)
Definition calculateDfaAlpha1 (rrIntervals : list number) : option number :=
  let cleanRR := preprocessRR rrIntervals in
  if (length cleanRR <? 50)%nat then None
  else
    let integratedSeries := integrate cleanRR in
    let p := log_pairs integratedSeries in
    Some (slope (linearRegression (fst p) (snd p))).

End Scaling.

(** The box sizes the loop of step 3 records: those with [Fn > 0]. *)
Definition recorded (integratedSeries : list number) : list nat :=
  filter (fun n => gt (calculateF_n integratedSeries n) 0) boxSizes.

End Binary64.

(** ** The trace of the validator loop *)

(** The array [filtered] at the start of iteration [i] of the loop of
    [preprocessRR]. *)
Fixpoint filtered_at (rr : list number) (i : nat) : list number :=
  match i with
  | O => []
  | S j => step (filtered_at rr j) (get rr j) (nth_error rr (S j))
  end.

(** ** Real-valued descriptions used in the statements *)

(** Every sample after the first is within 30% of its predecessor. *)
Fixpoint smooth (rs : list R) : Prop :=
  match rs with
  | a :: (b :: _) as tl => Rabs (b - a) / a <= 3 / 10 /\ smooth tl
  | _ => True
  end.

(** A JavaScript number that is a positive real. *)
Definition positive (x : number) : Prop :=
  match x with
  | Fin r => 0 < r
  | _ => False
  end.

(** *** Finite sums, mean and cumulative sum *)

(** [sum_upto f n] is f(0) + ... + f(n-1), added from the left as the
    loops of the module do. *)
Fixpoint sum_upto (f : nat -> R) (n : nat) : R :=
  match n with
  | O => 0
  | S m => sum_upto f m + f m
  end.

(** Element [j] of a sequence of reals. *)
Definition elt (rs : list R) (j : nat) : R := nth j rs 0.

(** The mean of all elements. *)
Definition mean (rs : list R) : R :=
  sum_upto (elt rs) (length rs) / INR (length rs).

(** The cumulative sum of (element - mean) over the elements 0..k. *)
Definition cumulative (rs : list R) (k : nat) : R :=
  sum_upto (fun j => elt rs j - mean rs) (S k).

(** The integrated series of a sequence of reals. *)
Definition integrated (rs : list R) : list R :=
  map (cumulative rs) (seq 0 (length rs)).


(** *** Least squares on a box, as the specification words it *)

(** Sample [k] of box [i] when the series is cut into boxes of [n]. *)
Definition box (ys : list R) (n i k : nat) : R := elt ys (i * n + k).

(** Means of the local indices 0..n-1 and of the samples of a box. *)
Definition xbar (n : nat) : R := sum_upto INR n / INR n.
Definition ybar (y : nat -> R) (n : nat) : R := sum_upto y n / INR n.

(** The ordinary least-squares line through the points (k, y k), k < n:
    slope as covariance over variance, intercept through the means. *)
Definition ols_slope (y : nat -> R) (n : nat) : R :=
  sum_upto (fun k => (INR k - xbar n) * (y k - ybar y n)) n
  / sum_upto (fun k => (INR k - xbar n) * (INR k - xbar n)) n.

Definition ols_intercept (y : nat -> R) (n : nat) : R :=
  ybar y n - ols_slope y n * xbar n.

(** Sum of the squared residuals of the line (a, b) on a box. *)
Definition rss (y : nat -> R) (n : nat) (a b : R) : R :=
  sum_upto (fun k => Rsqr (y k - (a * INR k + b))) n.

(** Sum of the squared residuals of the least-squares line on a box. *)
Definition box_rss (y : nat -> R) (n : nat) : R :=
  rss y n (ols_slope y n) (ols_intercept y n).

(** F(n): the boxes are the [numBoxes] complete ones, what remains after
    them is not read. *)
Definition fluctuation (ys : list R) (n : nat) : R :=
  let numBoxes := (length ys / n)%nat in
  R_sqrt.sqrt (sum_upto (fun i => box_rss (box ys n i) n) numBoxes
               / INR (numBoxes * n)).

(** *** What the source computes, on reals *)

(** The slope and intercept the source computes, on reals. *)
Definition code_slope (x y : nat -> R) (n : nat) : R :=
  (INR n * sum_upto (fun k => x k * y k) n - sum_upto x n * sum_upto y n)
  / (INR n * sum_upto (fun k => x k * x k) n - sum_upto x n * sum_upto x n).

Definition code_intercept (x y : nat -> R) (n : nat) : R :=
  (sum_upto y n - code_slope x y n * sum_upto x n) / INR n.

(** *** The recorded scales, on reals *)

Definition log10R (x : R) : R := ln x / ln 10.

(** The box sizes whose F(n) is positive, in the order of [boxSizes]. *)
Definition recorded (ys : list R) : list nat :=
  filter (fun n => Rltb 0 (fluctuation ys n)) boxSizes.

(** A regular window: fifty samples alternating between 800 and 820 ms. *)
Definition alternating : list R := concat (repeat [800; 820] 25).

(** ** The sensor packet parser ([BluetoothMonitor.parseHeartRate])

    A [DataView] is the list of its bytes.  A read past the end throws a
    [RangeError]; nothing catches it, so the packet is lost and [onData] is
    not called: that outcome is [None]. *)

(** [data.getUint8(offset)] *)
Definition getUint8 (data : list byte) (offset : nat) : option N :=
  option_map Byte.to_N (nth_error data offset).

(** [data.getUint16(offset, true)]: little endian, two bytes needed. *)
Definition getUint16 (data : list byte) (offset : nat) : option N :=
  match nth_error data offset, nth_error data (S offset) with
  | Some lo, Some hi => Some (Byte.to_N lo + 256 * Byte.to_N hi)%N
  | _, _ => None
  end.

(** An unsigned integer read from the packet, as a number. *)
Definition of_N (n : N) : number := Fin (IZR (Z.of_N n)).

(** [(rrRaw / 1024) * 1000] *)
Definition rrMs (rrRaw : N) : number :=
  (of_N rrRaw / Fin 1024 * Fin 1000)%js.

(** The loop [while (offset < data.byteLength)]: [rest] holds the bytes
    from [offset] on, so it is empty when the loop ends, and a single
    remaining byte makes [getUint16] throw. *)
Fixpoint read_intervals (rest : list byte) (rrIntervals : list number)
    : option (list number) :=
  match rest with
  | [] => Some rrIntervals
  | [_] => None
  | lo :: hi :: rest' =>
      let rrRaw := (Byte.to_N lo + 256 * Byte.to_N hi)%N in
      read_intervals rest' (rrIntervals ++ [rrMs rrRaw])
  end.

(** The arguments [onData] is called with, [None] when a read throws. *)
Definition parseHeartRate (data : list byte) : option (N * list number) :=
  match getUint8 data 0 with
  | None => None
  | Some flags =>
      let isUint16Measurement := negb (N.land flags 1 =? 0)%N in
      let rrIntervalsPresent := negb (N.land flags 16 =? 0)%N in
      let offset := 1%nat in
      let measurement :=
        if isUint16Measurement
        then option_map (fun hr => (hr, (offset + 2)%nat)) (getUint16 data offset)
        else option_map (fun hr => (hr, (offset + 1)%nat)) (getUint8 data offset) in
      match measurement with
      | None => None
      | Some (heartRate, offset) =>
          let energyExpendedPresent := negb (N.land flags 8 =? 0)%N in
          let offset :=
            if energyExpendedPresent then (offset + 2)%nat else offset in
          let rrIntervals :=
            if rrIntervalsPresent then read_intervals (skipn offset data) []
            else Some [] in
          match rrIntervals with
          | None => None
          | Some rrIntervals => Some (heartRate, rrIntervals)
          end
      end
  end.

(** *** The layout of a Heart Rate Measurement packet *)

(** Bit [k] of a flags byte. *)
Definition flag (flags : byte) (k : N) : bool := N.testbit (Byte.to_N flags) k.

(** Width of the heart-rate field and of the energy field. *)
Definition hr_width (flags : byte) : nat := if flag flags 0 then 2 else 1.
Definition energy_width (flags : byte) : nat := if flag flags 3 then 2 else 0.

(** Offset of the first interval. *)
Definition rr_offset (flags : byte) : nat :=
  (1 + hr_width flags + energy_width flags)%nat.

(** A little-endian field of one or two bytes. *)
Definition le_value (field : list byte) : N :=
  match field with
  | [lo] => Byte.to_N lo
  | [lo; hi] => (Byte.to_N lo + 256 * Byte.to_N hi)%N
  | _ => 0%N
  end.

(** The bytes of a list of 16-bit fields, each as (low, high). *)
Definition le_bytes (fields : list (byte * byte)) : list byte :=
  flat_map (fun f => [fst f; snd f]) fields.

(** The interval of a 16-bit field, in milliseconds. *)
Definition interval_ms (f : byte * byte) : R :=
  IZR (Z.of_N (Byte.to_N (fst f) + 256 * Byte.to_N (snd f))) / 1024 * 1000.

(** ** The data callback of [App]

    The callback given to [BluetoothMonitor] is a transition on the state
    it touches: the buffer [rrBufferRef.current] and the React states
    [heartRate], [currentAlpha1] and [history].  [now] is what [Date.now()]
    returns when the callback runs. *)

Module DFADataPoint.
Record t : Type := Mk { timestamp : Z; alpha1 : number; heartRate : N }.
End DFADataPoint.

Definition DFA_WINDOW_WIDTH : nat := 200.

Record AppState : Type := MkApp
  { rrBuffer : list number;
    heartRate : N;
    currentAlpha1 : option number;
    history : list DFADataPoint.t }.

(** The state [App] starts in. *)
Definition initialState : AppState :=
  {| rrBuffer := []; heartRate := 0; currentAlpha1 := None; history := [] |}.

(** [a.slice(-n)] for [n > 0]: the last [n] elements, all of them when
    there are fewer. *)
Definition slice_last {A : Type} (n : nat) (a : list A) : list A :=
  skipn (length a - n) a.

(** The updater passed to [setHistory]. *)
Definition recordPoint (now : Z) (alpha : number) (hr : N)
    (prev : list DFADataPoint.t) : list DFADataPoint.t :=
  let point := DFADataPoint.Mk now alpha hr in
  match nth_error prev (length prev - 1) with
  | None => prev ++ [point]
  | Some last =>
      if (now - DFADataPoint.timestamp last >? 2000)%Z then prev ++ [point]
      else prev
  end.

Definition onData (now : Z) (st : AppState) (hr : N)
    (rrIntervals : list number) : AppState :=
  if (0 <? length rrIntervals)%nat then
    let buffer := rrBuffer st ++ rrIntervals in
    let buffer :=
      if (DFA_WINDOW_WIDTH + 50 <? length buffer)%nat
      then slice_last (DFA_WINDOW_WIDTH + 50) buffer
      else buffer in
    if (DFA_WINDOW_WIDTH <=? length buffer)%nat then
      let windowSlice := slice_last DFA_WINDOW_WIDTH buffer in
      match calculateDfaAlpha1 windowSlice with
      | Some alpha =>
          {| rrBuffer := buffer; heartRate := hr;
             currentAlpha1 := Some alpha;
             history := recordPoint now alpha hr (history st) |}
      | None =>
          {| rrBuffer := buffer; heartRate := hr;
             currentAlpha1 := currentAlpha1 st; history := history st |}
      end
    else
      {| rrBuffer := buffer; heartRate := hr;
         currentAlpha1 := currentAlpha1 st; history := history st |}
  else
    {| rrBuffer := rrBuffer st; heartRate := hr;
       currentAlpha1 := currentAlpha1 st; history := history st |}.

(** A notification: the time it is handled at and what the parser hands
    over. *)
Record notification : Type := MkNote
  { at_time : Z; note_hr : N; note_rr : list number }.

(** The state after a sequence of notifications. *)
Definition run (st : AppState) (notes : list notification) : AppState :=
  fold_left (fun st n => onData (at_time n) st (note_hr n) (note_rr n))
    notes st.

(** All the intervals of a sequence of notifications, in order. *)
Definition received (notes : list notification) : list number :=
  concat (map note_rr notes).

(** Successive points of the history are more than two seconds apart. *)
Fixpoint spaced (h : list DFADataPoint.t) : Prop :=
  match h with
  | p :: (q :: _) as tl =>
      (DFADataPoint.timestamp q - DFADataPoint.timestamp p > 2000)%Z
      /\ spaced tl
  | _ => True
  end.

(** ** The gauge ([AlphaGauge]) *)

Module Gauge.
Import Stdlib.Strings.String.

Definition THRESHOLD_AEROBIC : number := Fin (3 / 4).
Definition THRESHOLD_ANAEROBIC : number := Fin (1 / 2).

(** [Math.min] and [Math.max] of two numbers: [NaN] as soon as one
    argument is [NaN]. *)
Definition Math_min (x y : number) : number :=
  match x, y with
  | NaN, _ | _, NaN => NaN
  | NInf, _ | _, NInf => NInf
  | PInf, z | z, PInf => z
  | Fin a, Fin b => Fin (Rmin a b)
  end.

Definition Math_max (x y : number) : number :=
  match x, y with
  | NaN, _ | _, NaN => NaN
  | PInf, _ | _, PInf => PInf
  | NInf, z | z, NInf => z
  | Fin a, Fin b => Fin (Rmax a b)
  end.

Definition clamped (value : number) : number :=
  Math_max (Fin 0) (Math_min (Fin (3 / 2)) value).

Definition percent (value : number) : number :=
  (clamped value / Fin (3 / 2) * Fin 100)%js.

(** The angle of the needle, in degrees:
    [(percent * 1.8) - 90 + 180]. *)
Definition rotation (value : number) : number :=
  (percent value * Fin (18 / 10) - Fin 90 + Fin 180)%js.

(** The four texts of the status line. *)
Definition AT_THRESHOLD : string := "At Threshold".
Definition ANAEROBIC : string := "Anaerobic".
Definition GREY_ZONE : string := "Grey Zone".
Definition AEROBIC_BASE : string := "Aerobic Base".

(** [statusText] after the chain of tests ([colorClass] is set with it:
    yellow, rose, orange, emerald in the order of the texts above). *)
Definition statusText (value : number) : string :=
  if lt value (THRESHOLD_AEROBIC + Fin (1 / 10))%js
     && gt value (THRESHOLD_AEROBIC - Fin (1 / 10))%js
  then AT_THRESHOLD
  else if lt value THRESHOLD_ANAEROBIC then ANAEROBIC
  else if lt value THRESHOLD_AEROBIC then GREY_ZONE
  else AEROBIC_BASE.

End Gauge.

(** ** The superseded validator

    The second [preprocessRR] of the module: it drops what it rejects. *)

Module Superseded.

(** One iteration of the loop: both [continue] leave [filtered] as it is. *)
Definition step (filtered : list number) (val : number) : list number :=
  if lt val (Fin 250) || gt val (Fin 2000) then filtered
  else if (5 <? length filtered)%nat then
    let last5 := slice_last 5 filtered in
    let meanLocal :=
      (fold_left add last5 (Fin 0) / of_nat (length last5))%js in
    if gt (JS.abs (val - meanLocal) / meanLocal)%js (Fin (3 / 10))
    then filtered
    else filtered ++ [val]
  else filtered ++ [val].

Definition preprocessRR (rrIntervals : list number) : list number :=
  if (length rrIntervals <? 3)%nat then rrIntervals
  else fold_left step rrIntervals [].

End Superseded.

(** [s] is [l] with some elements left out. *)
Inductive subsequence {A : Type} : list A -> list A -> Prop :=
| subsequence_nil : subsequence [] []
| subsequence_skip (a : A) (s l : list A) :
    subsequence s l -> subsequence s (a :: l)
| subsequence_keep (a : A) (s l : list A) :
    subsequence s l -> subsequence (a :: s) (a :: l).

(** * Proofs *)

(** ** Deciding comparisons *)

Lemma Rltb_true (a b : R) : a < b -> Rltb a b = true.
Proof. intros H. unfold Rltb. destruct (Rlt_dec a b); [reflexivity | contradiction]. Qed.

Lemma Rltb_false (a b : R) : b <= a -> Rltb a b = false.
Proof. intros H. unfold Rltb. destruct (Rlt_dec a b); [lra | reflexivity]. Qed.

Lemma Rltb_iff (a b : R) : Rltb a b = true <-> a < b.
Proof.
  unfold Rltb. destruct (Rlt_dec a b); split; intros; try easy.
Qed.

Lemma Rltb_false_iff (a b : R) : Rltb a b = false <-> b <= a.
Proof.
  unfold Rltb. destruct (Rlt_dec a b); split; intros; try easy; lra.
Qed.

Lemma Reqb_true (a b : R) : a = b -> Reqb a b = true.
Proof. intros H. unfold Reqb. destruct (Req_dec_T a b); [reflexivity | contradiction]. Qed.

Lemma Reqb_false (a b : R) : a <> b -> Reqb a b = false.
Proof. intros H. unfold Reqb. destruct (Req_dec_T a b); [contradiction | reflexivity]. Qed.

(** Decide every real comparison in the goal whose outcome [lra] can settle. *)
Ltac decide_cmp :=
  repeat match goal with
    | |- context [Rltb ?a ?b] =>
        first [ rewrite (Rltb_true a b) by lra
              | rewrite (Rltb_false a b) by lra ]
    | |- context [Reqb ?a ?b] =>
        first [ rewrite (Reqb_true a b) by lra
              | rewrite (Reqb_false a b) by lra ]
    end.

(** Division of finite numbers by a non-zero finite number. *)
Lemma div_Fin (a b : R) : b <> 0 -> (Fin a / Fin b)%js = Fin (a / b).
Proof. intros H. simpl. now rewrite Reqb_false. Qed.

(** ** The validator *)

Lemma length_pos_nonempty (A : Type) (l : list A) :
  (0 <? length l)%nat = true <-> l <> [].
Proof.
  destruct l; simpl; split; intros; try easy.
Qed.





(** C9. An input with fewer than three samples is returned unchanged. *)
Theorem preprocessRR_short (rr : list number) :
  (length rr < 3)%nat -> preprocessRR rr = rr.
Proof.
  intros H. unfold preprocessRR.
  apply Nat.ltb_lt in H. now rewrite H.
Qed.

Lemma preprocessRR_short_witness :
  (length [Fin 50; NaN] < 3)%nat /\
  preprocessRR [Fin 50; NaN] = [Fin 50; NaN].
Proof.
  split; [simpl; lia | apply preprocessRR_short; simpl; lia].
Defined.

(** The validity flag for a finite sample while nothing has been accepted. *)
Lemma isValid_empty (v : R) :
  isValid [] (Fin v) = true <-> 300 <= v <= 1300.
Proof.
  unfold isValid, MIN_RR, MAX_RR, gt, lt. simpl.
  rewrite andb_false_r, negb_true_iff, orb_false_iff, !Rltb_false_iff.
  lra.
Qed.

(** The validity flag for a finite sample once [filtered] ends with a
    positive value [p]. *)
Lemma isValid_after (filtered : list number) (v p : R) :
  filtered <> [] -> last_filtered filtered = Fin p -> 0 < p ->
  isValid filtered (Fin v) = true <->
  300 <= v <= 1300 /\ Rabs (v - p) / p <= 3 / 10.
Proof.
  intros Hne Hlast Hp. apply length_pos_nonempty in Hne.
  unfold isValid, MIN_RR, MAX_RR. rewrite Hne, Hlast, andb_true_r.
  cbn [sub JS.abs]. rewrite div_Fin by lra.
  unfold gt, lt.
  destruct (negb (Rltb v 300 || Rltb 1300 v)) eqn:E.
  - apply negb_true_iff, orb_false_iff in E. destruct E as [E1 E2].
    apply Rltb_false_iff in E1, E2.
    destruct (Rltb (3 / 10) (Rabs (v - p) / p)) eqn:E3.
    + apply Rltb_iff in E3. split; [discriminate | lra].
    + apply Rltb_false_iff in E3. split; [lra | reflexivity].
  - apply negb_false_iff, orb_true_iff in E.
    rewrite !Rltb_iff in E. split; [discriminate | lra].
Qed.

Lemma last_filtered_app (filtered : list number) (x : number) :
  last_filtered (filtered ++ [x]) = x.
Proof. unfold last_filtered. apply last_last. Qed.

Lemma last_positive (filtered : list number) :
  Forall positive filtered -> filtered <> [] ->
  exists p, last_filtered filtered = Fin p /\ 0 < p.
Proof.
  intros HF Hne.
  destruct (exists_last Hne) as [f' [x ->]].
  rewrite last_filtered_app.
  apply Forall_app in HF. destruct HF as [_ HF].
  inversion HF as [|? ? Hx _]; subst.
  destruct x; simpl in Hx; try contradiction. now exists r.
Qed.

Lemma truthy_positive (p : R) : 0 < p -> truthy (Fin p) = true.
Proof. intros H. simpl. now rewrite Reqb_false by lra. Qed.

(** What the correction branch emits when [filtered] ends with a positive
    value and the next raw sample, if any, is positive. *)
Lemma correct_positive (filtered : list number) (p : R) (next : option R) :
  filtered <> [] -> last_filtered filtered = Fin p -> 0 < p ->
  match next with Some nx => 0 < nx | None => True end ->
  correct filtered (option_map Fin next) =
  filtered ++ [Fin match next with Some nx => (p + nx) / 2 | None => p end].
Proof.
  intros Hne Hlast Hp Hnext. apply length_pos_nonempty in Hne.
  unfold correct. rewrite Hne, Hlast.
  destruct next as [nx|]; cbn [option_map truthy_opt to_number].
  - rewrite !truthy_positive by assumption. cbn [andb add].
    now rewrite div_Fin by lra.
  - rewrite truthy_positive by assumption. reflexivity.
Qed.

Lemma correct_empty (next : option number) : correct [] next = [].
Proof. reflexivity. Qed.

(** With a positive last element and a next raw sample that is not
    negative, the correction branch appends a positive value. *)
Lemma correct_nonneg (filtered : list number) (p : R) (next : option R) :
  filtered <> [] -> last_filtered filtered = Fin p -> 0 < p ->
  match next with Some nx => 0 <= nx | None => True end ->
  exists q, 0 < q /\
    correct filtered (option_map Fin next) = filtered ++ [Fin q].
Proof.
  intros Hne Hlast Hp Hnext.
  destruct next as [nx|].
  - destruct (Req_dec_T nx 0) as [-> | Hnz].
    + exists p. split; [exact Hp|].
      apply length_pos_nonempty in Hne.
      unfold correct. rewrite Hne, Hlast.
      cbn [option_map truthy_opt to_number truthy].
      rewrite (Reqb_true 0 0) by reflexivity.
      rewrite Reqb_false by lra. reflexivity.
    + exists ((p + nx) / 2). split; [lra|].
      apply (correct_positive filtered p (Some nx)); try assumption. lra.
  - exists p. split; [exact Hp|].
    now apply (correct_positive filtered p None).
Qed.

Lemma get_map_Fin (rs : list R) (i : nat) (v : R) :
  nth_error rs i = Some v -> get (map Fin rs) i = Fin v.
Proof.
  intros H. unfold get.
  rewrite (nth_indep _ NaN (Fin 0)).
  - rewrite (map_nth Fin rs 0 i). f_equal. now apply nth_error_nth.
  - rewrite length_map. apply nth_error_Some. congruence.
Qed.

Lemma nth_error_map_Fin (rs : list R) (i : nat) :
  nth_error (map Fin rs) i = option_map Fin (nth_error rs i).
Proof. apply nth_error_map. Qed.

(** On finite samples that are not negative every state of the loop holds
    positive finite values only. *)
Lemma filtered_at_positive (rs : list R) (i : nat) :
  Forall (fun r => 0 <= r) rs -> (i <= length rs)%nat ->
  Forall positive (filtered_at (map Fin rs) i).
Proof.
  intros Hpos. induction i as [|j IH]; intros Hi.
  - constructor.
  - specialize (IH ltac:(lia)).
    destruct (nth_error rs j) as [v|] eqn:Hv.
    2:{ apply nth_error_None in Hv. lia. }
    cbn [filtered_at]. rewrite (get_map_Fin _ _ _ Hv), nth_error_map_Fin.
    unfold step. destruct (isValid _ _) eqn:Hvalid.
    + apply Forall_app. split; [assumption|].
      repeat constructor. cbn [positive].
      destruct (filtered_at (map Fin rs) j) as [|a f] eqn:Ef.
      * apply isValid_empty in Hvalid. lra.
      * rewrite <- Ef in *.
        assert (Hne : filtered_at (map Fin rs) j <> [])
          by (rewrite Ef; discriminate).
        destruct (last_positive _ IH Hne) as [p [Hlast Hp]].
        apply (isValid_after _ v p Hne Hlast Hp) in Hvalid. lra.
    + destruct (filtered_at (map Fin rs) j) as [|a f] eqn:Ef.
      * rewrite correct_empty. constructor.
      * rewrite <- Ef in *.
        assert (Hne : filtered_at (map Fin rs) j <> [])
          by (rewrite Ef; discriminate).
        destruct (last_positive _ IH Hne) as [p [Hlast Hp]].
        assert (Hnext : match nth_error rs (S j) with
                        | Some nx => 0 <= nx | None => True end).
        { destruct (nth_error rs (S j)) as [nx|] eqn:Hn; [|exact I].
          rewrite Forall_forall in Hpos. apply Hpos.
          eapply nth_error_In; eassumption. }
        destruct (correct_nonneg _ p _ Hne Hlast Hp Hnext) as [q [Hq ->]].
        apply Forall_app. split; [assumption|].
        now repeat constructor.
Qed.

(** One iteration of the loop, unfolded at a sample of the input. *)
Lemma filtered_at_S (rs : list R) (i : nat) (v : R) :
  nth_error rs i = Some v ->
  filtered_at (map Fin rs) (S i) =
  if isValid (filtered_at (map Fin rs) i) (Fin v)
  then filtered_at (map Fin rs) i ++ [Fin v]
  else correct (filtered_at (map Fin rs) i) (nth_error (map Fin rs) (S i)).
Proof.
  intros Hv. cbn [filtered_at]. now rewrite (get_map_Fin _ _ _ Hv).
Qed.



(** The three correction rules on sequences of positive reals: a sample
    judged invalid is dropped while [filtered] is empty; otherwise it is
    replaced by the mean of the last element of [filtered] and the next raw
    sample, or by the last element of [filtered] itself when it is the last
    sample. *)
Lemma validator_corrects_positive (rs : list R) :
  Forall (fun r => 0 < r) rs ->
  forall (i : nat) (v : R), nth_error rs i = Some v ->
    let filtered := filtered_at (map Fin rs) i in
    isValid filtered (Fin v) = false ->
    (filtered = [] -> filtered_at (map Fin rs) (S i) = []) /\
    (filtered <> [] ->
     exists p, last_filtered filtered = Fin p /\
       filtered_at (map Fin rs) (S i) =
       filtered ++ [Fin match nth_error rs (S i) with
                        | Some next => (p + next) / 2
                        | None => p
                        end]).
Proof.
  intros Hpos i v Hv filtered Hinvalid.
  assert (Hi : (i <= length rs)%nat).
  { apply Nat.lt_le_incl, nth_error_Some. congruence. }
  assert (Hnn : Forall (fun r => 0 <= r) rs).
  { eapply Forall_impl; [|exact Hpos]. intros; simpl in *; lra. }
  pose proof (filtered_at_positive rs i Hnn Hi) as Hinv.
  fold filtered in Hinv.
  rewrite (filtered_at_S _ _ _ Hv). fold filtered. rewrite Hinvalid.
  split.
  - intros ->. apply correct_empty.
  - intros Hne.
    destruct (last_positive _ Hinv Hne) as [p [Hlast Hp]].
    exists p. split; [exact Hlast|].
    rewrite nth_error_map_Fin.
    apply correct_positive; try assumption.
    destruct (nth_error rs (S i)) as [nx|] eqn:Hn; [|exact I].
    rewrite Forall_forall in Hpos. apply Hpos.
    eapply nth_error_In; eassumption.
Qed.

(** The loop is the identity on a smooth in-range remainder that continues
    smoothly what has been accepted so far. *)
Lemma loop_valid (rest : list R) : forall filtered : list number,
  Forall (fun r => 300 <= r <= 1300) rest -> smooth rest ->
  (filtered = [] \/
   exists p, last_filtered filtered = Fin p /\ 0 < p /\
     match rest with
     | v :: _ => Rabs (v - p) / p <= 3 / 10
     | [] => True
     end) ->
  loop filtered (map Fin rest) = filtered ++ map Fin rest.
Proof.
  induction rest as [|v rest IH]; intros filtered Hrange Hsmooth Hprev.
  - simpl. now rewrite app_nil_r.
  - inversion Hrange as [|? ? Hv Hrange']; subst.
    assert (Hvalid : isValid filtered (Fin v) = true).
    { destruct Hprev as [-> | [p [Hlast [Hp Hrel]]]].
      - now apply isValid_empty.
      - apply (isValid_after filtered v p); try tauto.
        intros ->. discriminate. }
    cbn [map loop]. unfold step. rewrite Hvalid.
    rewrite IH.
    + now rewrite <- app_assoc.
    + exact Hrange'.
    + destruct rest; [exact I | apply Hsmooth].
    + right. exists v. rewrite last_filtered_app.
      split; [reflexivity|]. split; [lra|].
      destruct rest; [exact I | apply Hsmooth].
Qed.

(** C10. The validator is the identity on a sequence whose samples all lie
    in [300, 1300] and each differ from their predecessor by at most 30%
    of the predecessor. *)
Theorem preprocessRR_valid_identity (rs : list R) :
  Forall (fun r => 300 <= r <= 1300) rs -> smooth rs ->
  preprocessRR (map Fin rs) = map Fin rs.
Proof.
  intros Hrange Hsmooth. unfold preprocessRR.
  destruct (length (map Fin rs) <? 3)%nat; [reflexivity|].
  now rewrite loop_valid by auto.
Qed.

Lemma preprocessRR_valid_identity_witness :
  preprocessRR (map Fin [800; 820; 790; 1000]) = map Fin [800; 820; 790; 1000].
Proof.
  apply preprocessRR_valid_identity.
  - repeat constructor; lra.
  - simpl. repeat split; unfold Rabs; destruct (Rcase_abs _); lra.
Defined.

(** ** Running the validator on concrete inputs *)

(** Rewrite [Rabs] of a closed expression by its sign. *)
Ltac decide_abs :=
  repeat match goal with
    | |- context [Rabs ?a] =>
        first [ rewrite (Rabs_pos_eq a) by lra
              | rewrite (Rabs_left1 a) by lra ]
    end.

Ltac run_validator :=
  unfold preprocessRR; cbn [length Nat.ltb Nat.leb map loop hd_error];
  repeat (unfold step, isValid, correct, last_filtered, MIN_RR, MAX_RR, gt;
          cbn [length Nat.ltb Nat.leb app last lt sub add JS.abs div truthy
               truthy_opt to_number negb andb orb loop hd_error];
          decide_abs; decide_cmp;
          cbn [negb andb orb app signed_inf]).

(** [NaN] passes both the range check and the relative check, whatever has
    been accepted before. *)
Lemma isValid_NaN (filtered : list number) : isValid filtered NaN = true.
Proof.
  unfold isValid, MIN_RR, MAX_RR, gt. cbn [lt negb orb andb].
  destruct (0 <? length filtered)%nat; [|reflexivity].
  cbn [sub JS.abs div lt]. reflexivity.
Qed.

(** Whatever precedes a [NaN], the relative check passes. *)
Lemma isValid_after_NaN (filtered : list number) (v : R) :
  last_filtered filtered = NaN -> 300 <= v <= 1300 ->
  isValid filtered (Fin v) = true.
Proof.
  intros Hlast Hv. unfold isValid, MIN_RR, MAX_RR, gt. rewrite Hlast.
  cbn [lt sub JS.abs div]. decide_cmp. cbn [negb orb andb].
  now destruct (0 <? length filtered)%nat.
Qed.

(** A finite sample below 300 (so every sample that is not positive) and
    the two infinities never pass the range check. *)
Lemma isValid_below (filtered : list number) (v : R) :
  v < 300 -> isValid filtered (Fin v) = false.
Proof.
  intros H. unfold isValid, MIN_RR, MAX_RR, gt. cbn [lt].
  now rewrite (Rltb_true v 300) by lra.
Qed.

Lemma isValid_infinite (filtered : list number) :
  isValid filtered PInf = false /\ isValid filtered NInf = false.
Proof. split; reflexivity. Qed.

(** The documented glitch scenario: a 50 ms sample between valid ones is
    replaced by the mean of its neighbours. *)
Example glitch_replaced :
  preprocessRR (map Fin [800; 50; 820; 810]) = map Fin [800; (800 + 820) / 2; 820; 810].
Proof. run_validator. reflexivity. Qed.

(** The reference of the relative check is the last value emitted: after
    the glitch 50 is replaced by (800 + 1050) / 2 = 925, the sample 1050 is
    compared with 925 and kept. *)
Example reference_is_last_emitted :
  preprocessRR (map Fin [800; 50; 1050]) = map Fin [800; (800 + 1050) / 2; 1050].
Proof. run_validator. reflexivity. Qed.

(** C2 at the input [800, 50, 0]: the invalid sample 50 has the accepted
    predecessor 800 and the following raw sample 0, and is replaced by 800
    and not by their mean 400, because the test [prev && next] takes the
    sample 0 for an absent one. *)
Theorem zero_next_sample_clamps :
  preprocessRR [Fin 800; Fin 50; Fin 0] = [Fin 800; Fin 800; Fin 800] /\
  isValid [Fin 800] (Fin 50) = false /\
  filtered_at [Fin 800; Fin 50; Fin 0] 1 = [Fin 800] /\
  nth_error [Fin 800; Fin 50; Fin 0] 2 = Some (Fin 0) /\
  filtered_at [Fin 800; Fin 50; Fin 0] 2 = [Fin 800; Fin 800] /\
  Fin 800 <> Fin ((800 + 0) / 2).
Proof.
  assert (E1 : filtered_at [Fin 800; Fin 50; Fin 0] 1 = [Fin 800]).
  { cbn [filtered_at get nth nth_error]. run_validator. reflexivity. }
  repeat split.
  - run_validator. reflexivity.
  - run_validator. reflexivity.
  - exact E1.
  - change (filtered_at [Fin 800; Fin 50; Fin 0] 2)
      with (step (filtered_at [Fin 800; Fin 50; Fin 0] 1) (Fin 50) (Some (Fin 0))).
    rewrite E1. run_validator. reflexivity.
  - intros H. injection H as H. lra.
Qed.

(** C6 at the input [800, NaN, 810]: the sample [NaN] is appended to the
    cleaned sequence as it is. *)
Theorem NaN_accepted_as_is :
  preprocessRR [Fin 800; NaN; Fin 810] = [Fin 800; NaN; Fin 810] /\
  forall (filtered : list number) (next : option number),
    step filtered NaN next = filtered ++ [NaN].
Proof.
  split.
  - run_validator. reflexivity.
  - intros filtered next. unfold step. now rewrite isValid_NaN.
Qed.

(** ** Finite sums *)

Lemma sum_upto_ext (f g : nat -> R) (n : nat) :
  (forall j, (j < n)%nat -> f j = g j) -> sum_upto f n = sum_upto g n.
Proof.
  induction n as [|n IH]; intros H; simpl; [reflexivity|].
  rewrite IH by (intros; apply H; lia). now rewrite H by lia.
Qed.

Lemma sum_upto_plus (f g : nat -> R) (n : nat) :
  sum_upto (fun j => f j + g j) n = sum_upto f n + sum_upto g n.
Proof. induction n as [|n IH]; simpl; [|rewrite IH]; ring. Qed.

Lemma sum_upto_const (c : R) (n : nat) :
  sum_upto (fun _ => c) n = INR n * c.
Proof.
  induction n as [|n IH]; [simpl; ring|].
  cbn [sum_upto]. rewrite IH, S_INR. ring.
Qed.

Lemma sum_upto_nonneg (f : nat -> R) (n : nat) :
  (forall j, (j < n)%nat -> 0 <= f j) -> 0 <= sum_upto f n.
Proof.
  induction n as [|n IH]; intros H; simpl; [lra|].
  specialize (IH ltac:(intros; apply H; lia)).
  specialize (H n ltac:(lia)). lra.
Qed.

Lemma elt_app_l (l1 l2 : list R) (j : nat) :
  (j < length l1)%nat -> elt (l1 ++ l2) j = elt l1 j.
Proof. intros H. unfold elt. now apply app_nth1. Qed.

Lemma elt_app_last (l : list R) (x : R) : elt (l ++ [x]) (length l) = x.
Proof. unfold elt. now rewrite nth_middle. Qed.

(** ** The integrator *)

Lemma reduce_add_Fin (rs : list R) (a : R) :
  fold_left add (map Fin rs) (Fin a) = Fin (fold_left Rplus rs a).
Proof.
  revert a. induction rs as [|r rs IH]; intros a; [reflexivity|].
  simpl. apply IH.
Qed.

Lemma fold_Rplus_sum_upto (rs : list R) :
  fold_left Rplus rs 0 = sum_upto (elt rs) (length rs).
Proof.
  induction rs as [|x rs IH] using rev_ind; [reflexivity|].
  rewrite fold_left_app, length_app, Nat.add_1_r. cbn [fold_left sum_upto].
  rewrite IH, elt_app_last. f_equal.
  apply sum_upto_ext. intros j Hj. symmetry. now apply elt_app_l.
Qed.

Lemma meanRR_Fin (rs : list R) :
  rs <> [] -> meanRR (map Fin rs) = Fin (mean rs).
Proof.
  intros Hne. unfold meanRR, mean, of_nat.
  rewrite reduce_add_Fin, length_map, fold_Rplus_sum_upto.
  apply div_Fin. apply not_0_INR. now destruct rs.
Qed.

(** The integration loop after a whole finite sequence, for any finite
    value [mu] in the role of the mean. *)
Lemma integrate_fold (mu : R) (rs : list R) :
  fold_left (integrate_step (Fin mu)) (map Fin rs) (Fin 0, []) =
  (Fin (sum_upto (fun j => elt rs j - mu) (length rs)),
   map (fun k => Fin (sum_upto (fun j => elt rs j - mu) (S k)))
       (seq 0 (length rs))).
Proof.
  induction rs as [|x rs IH] using rev_ind; [reflexivity|].
  rewrite map_app, fold_left_app, IH, length_app, Nat.add_1_r, seq_S.
  cbn [map fold_left plus]. unfold integrate_step. cbn [fst snd sub add].
  rewrite map_app. cbn [map sum_upto].
  rewrite elt_app_last.
  assert (E : forall m, (m <= length rs)%nat ->
            sum_upto (fun j => elt (rs ++ [x]) j - mu) m =
            sum_upto (fun j => elt rs j - mu) m).
  { intros m Hm. apply sum_upto_ext. intros j Hj.
    now rewrite elt_app_l by lia. }
  rewrite (E (length rs)) by lia. f_equal. f_equal.
  apply map_ext_in. intros k Hk. apply in_seq in Hk.
  rewrite (E k) by lia. now rewrite elt_app_l by lia.
Qed.

Lemma integrate_Fin (rs : list R) :
  rs <> [] ->
  integrate (map Fin rs) =
  map (fun k => Fin (cumulative rs k)) (seq 0 (length rs)).
Proof.
  intros Hne. unfold integrate. rewrite (meanRR_Fin rs Hne).
  now rewrite integrate_fold.
Qed.

(** C7. On a non-empty cleaned sequence (of reals) the integrated series
    has the length of its input, its element [k] is the cumulative sum of
    (element - mean) over the elements 0..k, and its first element is
    input[0] - mean. *)
Theorem integrate_cumulative (rs : list R) :
  rs <> [] ->
  length (integrate (map Fin rs)) = length rs /\
  (forall k, (k < length rs)%nat ->
     nth_error (integrate (map Fin rs)) k = Some (Fin (cumulative rs k))) /\
  nth_error (integrate (map Fin rs)) 0 = Some (Fin (elt rs 0 - mean rs)).
Proof.
  intros Hne. rewrite (integrate_Fin rs Hne).
  assert (Hnth : forall k, (k < length rs)%nat ->
            nth_error (map (fun k => Fin (cumulative rs k))
                         (seq 0 (length rs))) k =
            Some (Fin (cumulative rs k))).
  { intros k Hk. rewrite nth_error_map.
    rewrite (nth_error_nth' _ 0%nat) by (rewrite length_seq; lia).
    now rewrite seq_nth by lia. }
  split; [|split].
  - now rewrite length_map, length_seq.
  - exact Hnth.
  - rewrite Hnth by (destruct rs; [contradiction | simpl; lia]).
    unfold cumulative. cbn [sum_upto]. now rewrite Rplus_0_l.
Qed.

Lemma integrate_cumulative_witness :
  length (integrate (map Fin [800; 820; 810])) = 3%nat /\
  (forall k, (k < 3)%nat ->
     nth_error (integrate (map Fin [800; 820; 810])) k =
     Some (Fin (cumulative [800; 820; 810] k))) /\
  nth_error (integrate (map Fin [800; 820; 810])) 0 =
  Some (Fin (elt [800; 820; 810] 0 - mean [800; 820; 810])).
Proof.
  apply (integrate_cumulative [800; 820; 810]). discriminate.
Defined.

(** The integrated series of 800, 820, 810 (mean 810) is -10, 0, 0. *)
Example integrate_example :
  integrate (map Fin [800; 820; 810]) = [Fin (-10); Fin 0; Fin 0].
Proof.
  rewrite integrate_Fin by discriminate.
  assert (M : mean [800; 820; 810] = 810).
  { unfold mean, elt. simpl. lra. }
  unfold cumulative. rewrite M. cbn [length seq map sum_upto elt nth].
  repeat f_equal; lra.
Qed.

(** ** [linearRegression] on finite data *)

Lemma regression_sums_prefix (x y : list number) (fx fy : nat -> R) (m : nat) :
  (forall i, (i < m)%nat -> get x i = Fin (fx i) /\ get y i = Fin (fy i)) ->
  fold_left (regression_step x y) (seq 0 m)
    (MkSums (Fin 0) (Fin 0) (Fin 0) (Fin 0)) =
  MkSums (Fin (sum_upto fx m)) (Fin (sum_upto fy m))
         (Fin (sum_upto (fun k => fx k * fy k) m))
         (Fin (sum_upto (fun k => fx k * fx k) m)).
Proof.
  induction m as [|m IH]; intros H; [reflexivity|].
  rewrite seq_S, fold_left_app, IH by (intros; apply H; lia).
  destruct (H m ltac:(lia)) as [Hx Hy].
  cbn [fold_left plus]. unfold regression_step.
  cbn [sumX sumY sumXY sumXX]. now rewrite Hx, Hy.
Qed.

Lemma linearRegression_Fin (x y : list number) (fx fy : nat -> R) (n : nat) :
  length x = n ->
  (forall i, (i < n)%nat -> get x i = Fin (fx i) /\ get y i = Fin (fy i)) ->
  n <> 0%nat ->
  INR n * sum_upto (fun k => fx k * fx k) n - sum_upto fx n * sum_upto fx n
    <> 0 ->
  linearRegression x y =
  MkFit (Fin (code_slope fx fy n)) (Fin (code_intercept fx fy n)).
Proof.
  intros Hlen H Hn HD. unfold linearRegression, regression_sums.
  rewrite Hlen, (regression_sums_prefix x y fx fy n H).
  cbn [sumX sumY sumXY sumXX]. unfold of_nat.
  cbn [mul sub]. rewrite div_Fin by exact HD.
  cbn [mul sub]. rewrite div_Fin by now apply not_0_INR.
  reflexivity.
Qed.

Lemma get_local_index (n k : nat) :
  (k < n)%nat -> get (map of_nat (seq 0 n)) k = Fin (INR k).
Proof.
  intros H. unfold get.
  rewrite (nth_indep _ NaN (of_nat 0)) by (rewrite length_map, length_seq; lia).
  rewrite map_nth, seq_nth by lia. reflexivity.
Qed.

Lemma get_slice_Fin (ys : list R) (n i k : nat) :
  (i * n + n <= length ys)%nat -> (k < n)%nat ->
  get (slice (map Fin ys) (i * n) (i * n + n)) k = Fin (box ys n i k).
Proof.
  intros Hlen Hk. unfold get, slice, box, elt.
  replace (i * n + n - i * n)%nat with n by lia.
  rewrite nth_firstn.
  destruct (k <? n)%nat eqn:E; [|apply Nat.ltb_ge in E; lia].
  rewrite nth_skipn.
  rewrite (nth_indep _ NaN (Fin 0)) by (rewrite length_map; lia).
  now rewrite map_nth.
Qed.

(** *** The local indices 0..n-1 *)

Lemma sum_INR (n : nat) : sum_upto INR n = INR n * (INR n - 1) / 2.
Proof.
  induction n as [|n IH]; [simpl; lra|].
  cbn [sum_upto]. rewrite IH, S_INR. field.
Qed.

Lemma sum_INR_sq (n : nat) :
  sum_upto (fun k => INR k * INR k) n
  = (INR n - 1) * INR n * (2 * INR n - 1) / 6.
Proof.
  induction n as [|n IH]; [simpl; lra|].
  cbn [sum_upto]. rewrite IH, S_INR. field.
Qed.

Lemma INR_ge_2 (n : nat) : (2 <= n)%nat -> 2 <= INR n.
Proof. intros H. apply le_INR in H. simpl in H. lra. Qed.

(** The denominator of the slope is positive as soon as a box has two
    samples: it is n^2 (n^2 - 1) / 12. *)
Lemma regression_denominator (n : nat) :
  (2 <= n)%nat ->
  0 < INR n * sum_upto (fun k => INR k * INR k) n
      - sum_upto INR n * sum_upto INR n.
Proof.
  intros H. apply INR_ge_2 in H.
  rewrite sum_INR, sum_INR_sq.
  replace (INR n * ((INR n - 1) * INR n * (2 * INR n - 1) / 6)
           - INR n * (INR n - 1) / 2 * (INR n * (INR n - 1) / 2))
    with (INR n * INR n * ((INR n - 1) * (INR n + 1)) / 12) by field.
  assert (0 < INR n * INR n) by nra.
  assert (0 < (INR n - 1) * (INR n + 1)) by nra.
  nra.
Qed.

(** *** The source's closed form is the least-squares line *)

Lemma sum_centered_product (f g : nat -> R) (a b : R) (n : nat) :
  sum_upto (fun k => (f k - a) * (g k - b)) n
  = sum_upto (fun k => f k * g k) n - a * sum_upto g n - b * sum_upto f n
    + INR n * a * b.
Proof.
  induction n as [|n IH]; [simpl; ring|].
  cbn [sum_upto]. rewrite IH, S_INR. ring.
Qed.

Lemma code_slope_ols (y : nat -> R) (n : nat) :
  (2 <= n)%nat -> code_slope INR y n = ols_slope y n.
Proof.
  intros Hn. pose proof (regression_denominator n Hn) as HD.
  pose proof (INR_ge_2 n Hn) as Hn2.
  unfold code_slope, ols_slope, xbar, ybar.
  rewrite !sum_centered_product.
  set (Sk := sum_upto INR n) in *.
  set (Skk := sum_upto (fun k => INR k * INR k) n) in *.
  set (Sy := sum_upto y n). set (Sky := sum_upto (fun k => INR k * y k) n).
  field. split; [|lra].
  intros E. apply (Rlt_irrefl 0).
  replace 0 with (INR n * 0) at 2 by ring.
  rewrite <- E.
  replace (INR n * (Skk * INR n * INR n - Sk * Sk * INR n - Sk * Sk * INR n
                    + INR n * Sk * Sk))
    with (INR n * INR n * (INR n * Skk - Sk * Sk)) by ring.
  assert (0 < INR n * INR n) by nra. nra.
Qed.

Lemma code_intercept_ols (y : nat -> R) (n : nat) :
  (2 <= n)%nat -> code_intercept INR y n = ols_intercept y n.
Proof.
  intros Hn. pose proof (INR_ge_2 n Hn) as Hn2.
  unfold code_intercept, ols_intercept, xbar, ybar.
  rewrite (code_slope_ols y n Hn). field. lra.
Qed.

(** The residuals of the fitted line sum to zero, and so do the residuals
    weighted by the index (the normal equations). *)
Lemma normal_equations (y : nat -> R) (n : nat) :
  (2 <= n)%nat ->
  let r := fun k => y k - (ols_slope y n * INR k + ols_intercept y n) in
  sum_upto r n = 0 /\ sum_upto (fun k => INR k * r k) n = 0.
Proof.
  intros Hn r. pose proof (regression_denominator n Hn) as HD.
  pose proof (INR_ge_2 n Hn) as Hn2.
  assert (E1 : forall s c, sum_upto (fun k => y k - (s * INR k + c)) n
                 = sum_upto y n - s * sum_upto INR n - INR n * c).
  { intros s c. clear. induction n as [|m IH]; [simpl; ring|].
    cbn [sum_upto]. rewrite IH, S_INR. ring. }
  assert (E2 : forall s c,
             sum_upto (fun k => INR k * (y k - (s * INR k + c))) n
             = sum_upto (fun k => INR k * y k) n
               - s * sum_upto (fun k => INR k * INR k) n
               - c * sum_upto INR n).
  { intros s c. clear. induction n as [|m IH]; [simpl; ring|].
    cbn [sum_upto]. rewrite IH. ring. }
  subst r. rewrite E1, E2.
  unfold ols_intercept. rewrite <- (code_slope_ols y n Hn).
  unfold code_slope, xbar, ybar.
  set (Sk := sum_upto INR n) in *.
  set (Skk := sum_upto (fun k => INR k * INR k) n) in *.
  set (Sy := sum_upto y n). set (Sky := sum_upto (fun k => INR k * y k) n).
  split; field; lra.
Qed.

(** Any line has at least the squared residuals of the fitted one: the
    closed form is the ordinary least-squares fit. *)
Lemma ols_least_squares (y : nat -> R) (n : nat) (a b : R) :
  (2 <= n)%nat -> box_rss y n <= rss y n a b.
Proof.
  intros Hn. destruct (normal_equations y n Hn) as [N1 N2].
  set (s := ols_slope y n) in *. set (c := ols_intercept y n) in *.
  assert (E : forall m,
    sum_upto (fun k => Rsqr (y k - (a * INR k + b))) m
    = sum_upto (fun k => Rsqr (y k - (s * INR k + c))) m
      + 2 * ((s - a) * sum_upto (fun k => INR k * (y k - (s * INR k + c))) m
             + (c - b) * sum_upto (fun k => y k - (s * INR k + c)) m)
      + sum_upto (fun k => Rsqr ((s - a) * INR k + (c - b))) m).
  { induction m as [|m IH]; [simpl; ring|].
    cbn [sum_upto]. rewrite IH. unfold Rsqr. ring. }
  unfold box_rss, rss. fold s c. rewrite (E n), N1, N2.
  assert (0 <= sum_upto (fun k => Rsqr ((s - a) * INR k + (c - b))) n).
  { apply sum_upto_nonneg. intros. apply Rle_0_sqr. }
  lra.
Qed.

(** ** [calculateF_n] on a finite series *)

Lemma residual_fold (segmentY : list number) (y : nat -> R) (s c t : R)
    (m : nat) :
  (forall k, (k < m)%nat -> get segmentY k = Fin (y k)) ->
  fold_left (residual_step segmentY (MkFit (Fin s) (Fin c))) (seq 0 m) (Fin t)
  = Fin (t + rss y m s c).
Proof.
  induction m as [|m IH]; intros H.
  - simpl. unfold rss. simpl. now rewrite Rplus_0_r.
  - rewrite seq_S, fold_left_app, IH by (intros; apply H; lia).
    cbn [fold_left plus]. unfold residual_step, of_nat.
    cbn [slope intercept mul add]. rewrite (H m) by lia.
    cbn [sub mul add]. unfold rss. cbn [sum_upto]. unfold Rsqr.
    f_equal. ring.
Qed.

Lemma box_step_Fin (ys : list R) (n i : nat) (t : R) :
  (2 <= n)%nat -> (i * n + n <= length ys)%nat ->
  box_step (map Fin ys) n (Fin t) i = Fin (t + box_rss (box ys n i) n).
Proof.
  intros Hn Hlen. unfold box_step.
  rewrite (linearRegression_Fin _ _ INR (box ys n i) n).
  - rewrite (residual_fold _ (box ys n i)).
    + unfold box_rss.
      now rewrite (code_slope_ols _ n Hn), (code_intercept_ols _ n Hn).
    + intros k Hk. now apply get_slice_Fin.
  - now rewrite length_map, length_seq.
  - intros k Hk. split; [now apply get_local_index | now apply get_slice_Fin].
  - lia.
  - pose proof (regression_denominator n Hn). lra.
Qed.

Lemma boxes_fold (ys : list R) (n m : nat) :
  (2 <= n)%nat -> (m * n <= length ys)%nat ->
  fold_left (box_step (map Fin ys) n) (seq 0 m) (Fin 0)
  = Fin (sum_upto (fun i => box_rss (box ys n i) n) m).
Proof.
  intros Hn. induction m as [|m IH]; intros Hlen; [reflexivity|].
  rewrite seq_S, fold_left_app, IH by lia.
  cbn [fold_left plus]. rewrite box_step_Fin by (try assumption; lia).
  reflexivity.
Qed.

Lemma rss_nonneg (y : nat -> R) (n : nat) (a b : R) : 0 <= rss y n a b.
Proof. apply sum_upto_nonneg. intros. apply Rle_0_sqr. Qed.

Lemma sqrt_Fin (a : R) : 0 <= a -> JS.sqrt (Fin a) = Fin (R_sqrt.sqrt a).
Proof. intros H. simpl. now rewrite Rltb_false. Qed.

(** [calculateF_n] on a finite series with at least one complete box. *)
Lemma calculateF_n_Fin (ys : list R) (n : nat) :
  (2 <= n)%nat -> (n <= length ys)%nat ->
  calculateF_n (map Fin ys) n = Fin (fluctuation ys n).
Proof.
  intros Hn Hlen.
  unfold calculateF_n, fluctuation. rewrite length_map.
  set (numBoxes := (length ys / n)%nat).
  assert (Hnb : (0 < numBoxes)%nat) by (apply Nat.div_str_pos; lia).
  assert (Hfit : (numBoxes * n <= length ys)%nat).
  { rewrite Nat.mul_comm. apply Nat.Div0.mul_div_le. }
  rewrite (boxes_fold ys n numBoxes Hn Hfit). unfold of_nat.
  assert (Hpos : 0 < INR (numBoxes * n)) by (apply lt_0_INR; nia).
  rewrite div_Fin by lra.
  apply sqrt_Fin.
  apply Rmult_le_pos; [|apply Rlt_le, Rinv_0_lt_compat, Hpos].
  apply sum_upto_nonneg. intros. apply rss_nonneg.
Qed.

(** C3. On a series of reals with at least one complete box of size n
    (n >= 2, which covers the sizes 4..16), [calculateF_n] is
    sqrt(S / (numBoxes * n)) with numBoxes = floor(length / n) and S the
    sum, over the numBoxes consecutive boxes of n samples, of the squared
    residuals of the least-squares line against the local indices 0..n-1;
    that line has the least sum of squared residuals of all lines. *)
Theorem calculateF_n_fluctuation (ys : list R) (n : nat) :
  (2 <= n)%nat -> (n <= length ys)%nat ->
  calculateF_n (map Fin ys) n = Fin (fluctuation ys n) /\
  (forall i a b, box_rss (box ys n i) n <= rss (box ys n i) n a b).
Proof.
  intros Hn Hlen. split.
  - now apply calculateF_n_Fin.
  - intros i a b. now apply ols_least_squares.
Qed.

Lemma calculateF_n_fluctuation_witness :
  calculateF_n (map Fin [1; 3; 2; 5; 4]) 2
  = Fin (fluctuation [1; 3; 2; 5; 4] 2) /\
  (forall i a b, box_rss (box [1; 3; 2; 5; 4] 2 i) 2
                 <= rss (box [1; 3; 2; 5; 4] 2 i) 2 a b).
Proof.
  apply (calculateF_n_fluctuation [1; 3; 2; 5; 4] 2); simpl; lia.
Defined.

(** Running the source on the series 0, 1, 0 with one box of three
    samples: the fitted line is the constant 1/3, the squared residuals
    sum to 2/3, and F(3) = sqrt((2/3)/3). *)
Example calculateF_n_example :
  calculateF_n [Fin 0; Fin 1; Fin 0] 3 = Fin (R_sqrt.sqrt (2 / 9)).
Proof.
  unfold calculateF_n. cbn [length Nat.div Nat.divmod fst seq fold_left].
  unfold box_step, linearRegression, regression_sums.
  cbn [length map seq fold_left Nat.mul Nat.add slice Nat.sub skipn firstn].
  unfold regression_step, residual_step, get, of_nat.
  cbn [sumX sumY sumXY sumXX nth slope intercept INR add mul sub].
  rewrite div_Fin by lra. cbn [mul sub]. rewrite div_Fin by lra.
  cbn [add mul sub]. rewrite div_Fin by lra.
  rewrite sqrt_Fin by lra. f_equal. f_equal. field.
Qed.

(** ** A constant offset *)

Lemma ybar_shift (y : nat -> R) (n : nat) (c : R) :
  n <> 0%nat -> ybar (fun k => y k + c) n = ybar y n + c.
Proof.
  intros Hn. unfold ybar. rewrite sum_upto_plus, sum_upto_const.
  field. now apply not_0_INR.
Qed.

Lemma ols_slope_shift (y : nat -> R) (n : nat) (c : R) :
  n <> 0%nat -> ols_slope (fun k => y k + c) n = ols_slope y n.
Proof.
  intros Hn. unfold ols_slope. rewrite (ybar_shift y n c Hn). f_equal.
  apply sum_upto_ext. intros k _. ring.
Qed.

Lemma ols_intercept_shift (y : nat -> R) (n : nat) (c : R) :
  n <> 0%nat -> ols_intercept (fun k => y k + c) n = ols_intercept y n + c.
Proof.
  intros Hn. unfold ols_intercept.
  rewrite (ols_slope_shift y n c Hn), (ybar_shift y n c Hn). ring.
Qed.

(** The residuals of a box do not see a constant offset. *)
Lemma box_rss_shift (y : nat -> R) (n : nat) (c : R) :
  n <> 0%nat -> box_rss (fun k => y k + c) n = box_rss y n.
Proof.
  intros Hn. unfold box_rss, rss.
  rewrite (ols_slope_shift y n c Hn), (ols_intercept_shift y n c Hn).
  apply sum_upto_ext. intros k _. f_equal. ring.
Qed.

Lemma box_rss_ext (y z : nat -> R) (n : nat) :
  (forall k, (k < n)%nat -> y k = z k) -> box_rss y n = box_rss z n.
Proof.
  intros H. unfold box_rss, rss, ols_intercept, ols_slope, ybar.
  rewrite (sum_upto_ext y z n H).
  set (m := sum_upto z n / INR n).
  assert (E : sum_upto (fun k => (INR k - xbar n) * (y k - m)) n
              = sum_upto (fun k => (INR k - xbar n) * (z k - m)) n).
  { apply sum_upto_ext. intros k Hk. now rewrite H. }
  rewrite E. apply sum_upto_ext. intros k Hk. now rewrite H.
Qed.

Lemma box_shift (ys : list R) (n i k : nat) (c : R) :
  (i * n + k < length ys)%nat ->
  box (map (fun y => y + c) ys) n i k = box ys n i k + c.
Proof.
  intros H. unfold box, elt.
  rewrite (nth_indep _ 0 (0 + c)) by (rewrite length_map; lia).
  now rewrite (map_nth (fun y => y + c)).
Qed.

Lemma fluctuation_shift (ys : list R) (n : nat) (c : R) :
  n <> 0%nat ->
  fluctuation (map (fun y => y + c) ys) n = fluctuation ys n.
Proof.
  intros Hn. unfold fluctuation. rewrite length_map.
  f_equal. f_equal. apply sum_upto_ext. intros i Hi.
  rewrite <- (box_rss_shift (box ys n i) n c Hn).
  apply box_rss_ext. intros k Hk. apply box_shift.
  assert ((length ys / n) * n <= length ys)%nat
    by (rewrite Nat.mul_comm; apply Nat.Div0.mul_div_le).
  nia.
Qed.

(** *** Boxes of a single sample

    With [boxSize = 1] the slope is 0/0: the fit, every residual and F(1)
    are [NaN], whatever the series holds. *)

Lemma slope_one_NaN (y : number) :
  slope (linearRegression [of_nat 0] [y]) = NaN.
Proof.
  unfold linearRegression, regression_sums, regression_step, get, of_nat.
  cbn [length seq fold_left nth sumX sumY sumXY sumXX slope INR].
  destruct y as [r| | |]; cbn [add mul sub]; decide_cmp; cbn [div];
    decide_cmp; reflexivity.
Qed.

Lemma box_step_one (series : list number) (total : number) (i : nat) :
  (i < length series)%nat -> box_step series 1 total i = NaN.
Proof.
  intros Hi. unfold box_step.
  cbn [seq map fold_left]. unfold residual_step.
  assert (E : slice series (i * 1) (i * 1 + 1) = [get series i]).
  { unfold slice, get. replace (i * 1 + 1 - i * 1)%nat with 1%nat by lia.
    rewrite Nat.mul_1_r.
    rewrite <- (firstn_skipn i series) at 2.
    rewrite app_nth2 by (rewrite length_firstn; lia).
    rewrite length_firstn, Nat.min_l, Nat.sub_diag by lia.
    destruct (skipn i series) as [|a l] eqn:E.
    - apply (f_equal (@length _)) in E. rewrite length_skipn in E.
      simpl in E. lia.
    - reflexivity. }
  rewrite E, slope_one_NaN.
  cbn [mul add]. unfold get at 1. cbn [nth].
  destruct (get series i), total; reflexivity.
Qed.

Lemma boxes_fold_NaN (series : list number) (l : list nat) :
  fold_left (box_step series 1) l NaN = NaN.
Proof. induction l as [|i l IH]; [reflexivity | exact IH]. Qed.

Lemma calculateF_n_one (series : list number) :
  series <> [] -> calculateF_n series 1 = NaN.
Proof.
  intros Hne. unfold calculateF_n. rewrite Nat.div_1_r.
  destruct series as [|a l]; [contradiction|].
  cbn [length seq fold_left].
  rewrite box_step_one by (simpl; lia).
  now rewrite boxes_fold_NaN.
Qed.

(** C8. In exact arithmetic, adding a real constant [c] to every element
    of a series of reals with at least one complete box of size n leaves
    F(n) unchanged.  The binary64 engine does not have this property: the
    section on binary64 runs gives a series on which an offset changes the
    value it returns. *)
Theorem calculateF_n_offset (ys : list R) (n : nat) (c : R) :
  (1 <= n)%nat -> (n <= length ys)%nat ->
  calculateF_n (map Fin (map (fun y => y + c) ys)) n
  = calculateF_n (map Fin ys) n.
Proof.
  intros Hn Hlen.
  destruct (Nat.eq_dec n 1) as [-> | Hn1].
  - rewrite !calculateF_n_one; [reflexivity | |];
      destruct ys; simpl in *; try discriminate; lia.
  - rewrite !calculateF_n_Fin by (rewrite ?length_map; lia).
    f_equal. apply fluctuation_shift. lia.
Qed.

Lemma calculateF_n_offset_witness :
  calculateF_n (map Fin (map (fun y => y + 7) [0; 1; 0; 2])) 4
  = calculateF_n (map Fin [0; 1; 0; 2]) 4.
Proof.
  apply (calculateF_n_offset [0; 1; 0; 2] 4 7); simpl; lia.
Defined.

(** ** [calculateDfaAlpha1] *)


Lemma integrate_integrated (rs : list R) :
  rs <> [] -> integrate (map Fin rs) = map Fin (integrated rs).
Proof.
  intros Hne. rewrite (integrate_Fin rs Hne). unfold integrated.
  now rewrite map_map.
Qed.

Lemma length_integrated (rs : list R) : length (integrated rs) = length rs.
Proof. unfold integrated. now rewrite length_map, length_seq. Qed.

Lemma elt_integrated (rs : list R) (k : nat) :
  (k < length rs)%nat -> elt (integrated rs) k = cumulative rs k.
Proof.
  intros Hk. unfold elt, integrated.
  rewrite (nth_indep _ 0 (cumulative rs 0))
    by (rewrite length_map, length_seq; lia).
  now rewrite map_nth, seq_nth by lia.
Qed.

(** *** Degenerate regressions *)

(** With no recorded pair, or a single one, the slope is 0/0. *)
Lemma slope_no_pair : slope (linearRegression [] []) = NaN.
Proof.
  unfold linearRegression, regression_sums, of_nat.
  cbn [length seq fold_left sumX sumY sumXY sumXX slope INR mul sub div].
  now decide_cmp.
Qed.

Lemma slope_one_pair (x y : R) : slope (linearRegression [Fin x] [Fin y]) = NaN.
Proof.
  unfold linearRegression, regression_sums, regression_step, get, of_nat.
  cbn [length seq fold_left nth sumX sumY sumXY sumXX slope INR
       add mul sub div].
  now decide_cmp.
Qed.

(** *** A perfectly linear integrated series *)

Lemma box_rss_nonneg (y : nat -> R) (n : nat) : 0 <= box_rss y n.
Proof. apply rss_nonneg. Qed.

(** A box whose samples lie on a line has no residual. *)
Lemma box_rss_line (y : nat -> R) (n : nat) (a b : R) :
  (2 <= n)%nat -> (forall k, (k < n)%nat -> y k = a * INR k + b) ->
  box_rss y n = 0.
Proof.
  intros Hn Hline. apply Rle_antisym; [|apply box_rss_nonneg].
  apply Rle_trans with (rss y n a b); [now apply ols_least_squares|].
  unfold rss. rewrite (sum_upto_ext _ (fun _ => 0)).
  - rewrite sum_upto_const. lra.
  - intros k Hk. rewrite (Hline k Hk). unfold Rsqr. ring.
Qed.

Lemma fluctuation_linear (ys : list R) (n : nat) (a b : R) :
  (2 <= n)%nat ->
  (forall j, (j < length ys)%nat -> elt ys j = a * INR j + b) ->
  fluctuation ys n = 0.
Proof.
  intros Hn Hline. unfold fluctuation.
  rewrite (sum_upto_ext _ (fun _ => 0)).
  - rewrite sum_upto_const. unfold Rdiv. rewrite Rmult_0_r, Rmult_0_l.
    apply sqrt_0.
  - intros i Hi.
    apply (box_rss_line _ n a (a * INR (i * n) + b) Hn).
    intros k Hk. unfold box. rewrite Hline.
    + rewrite plus_INR. ring.
    + assert ((length ys / n) * n <= length ys)%nat
        by (rewrite Nat.mul_comm; apply Nat.Div0.mul_div_le).
      nia.
Qed.

(** A box size whose F(n) is not positive records nothing. *)
Lemma scale_fold_skip (series : list number) (sizes : list nat)
    (st : list number * list number) :
  (forall n, In n sizes -> gt (calculateF_n series n) (Fin 0) = false) ->
  fold_left (scale_step series) sizes st = st.
Proof.
  revert st. induction sizes as [|n sizes IH]; intros st H; [reflexivity|].
  cbn [fold_left]. unfold scale_step at 2.
  rewrite (H n) by now left.
  apply IH. intros m Hm. apply H. now right.
Qed.

Lemma boxSizes_range (n : nat) : In n boxSizes -> (4 <= n <= 16)%nat.
Proof. unfold boxSizes. simpl. intros H. lia. Qed.

(** On a cleaned sequence of reals, no shorter than the largest box, whose
    integrated series is perfectly linear, every F(n) is 0, no pair is
    recorded, and the regression divides 0 by 0. *)
Lemma linear_series_NaN (rs : list R) (a b : R) :
  (16 <= length rs)%nat ->
  (forall k, (k < length rs)%nat -> cumulative rs k = a * INR k + b) ->
  log_pairs (integrate (map Fin rs)) = ([], []) /\
  slope (linearRegression (fst (log_pairs (integrate (map Fin rs))))
                          (snd (log_pairs (integrate (map Fin rs))))) = NaN.
Proof.
  intros Hlen Hline.
  assert (Hne : rs <> []) by (destruct rs; [simpl in Hlen; lia | discriminate]).
  assert (E : log_pairs (integrate (map Fin rs)) = ([], [])).
  { unfold log_pairs. apply scale_fold_skip. intros n Hn.
    apply boxSizes_range in Hn.
    rewrite (integrate_integrated rs Hne).
    rewrite calculateF_n_Fin by (rewrite ?length_integrated; lia).
    rewrite (fluctuation_linear _ n a b).
    - unfold gt, lt. apply Rltb_false. lra.
    - lia.
    - intros j Hj. rewrite length_integrated in Hj.
      now rewrite elt_integrated, Hline. }
  split; [exact E|]. rewrite E. apply slope_no_pair.
Qed.

(** *** A constant window *)

Lemma elt_repeat (c : R) (m j : nat) : (j < m)%nat -> elt (repeat c m) j = c.
Proof.
  intros H. unfold elt. apply nth_repeat_lt. exact H.
Qed.

Lemma mean_repeat (c : R) (m : nat) : m <> 0%nat -> mean (repeat c m) = c.
Proof.
  intros Hm. unfold mean. rewrite repeat_length.
  rewrite (sum_upto_ext _ (fun _ => c)) by (intros; now apply elt_repeat).
  rewrite sum_upto_const. field. now apply not_0_INR.
Qed.

Lemma cumulative_repeat (c : R) (m k : nat) :
  (k < m)%nat -> cumulative (repeat c m) k = 0.
Proof.
  intros Hk. unfold cumulative. rewrite mean_repeat by lia.
  rewrite (sum_upto_ext _ (fun _ => 0)).
  - rewrite sum_upto_const. ring.
  - intros j Hj. rewrite elt_repeat by lia. ring.
Qed.

Lemma smooth_repeat (c : R) (m : nat) : 0 < c -> smooth (repeat c m).
Proof.
  intros Hc. induction m as [|m IH]; [exact I|].
  destruct m as [|m]; [exact I|].
  cbn [repeat smooth] in *. split; [|exact IH].
  replace (c - c) with 0 by ring. rewrite Rabs_R0.
  unfold Rdiv. rewrite Rmult_0_l. lra.
Qed.

Lemma preprocessRR_repeat (c : R) (m : nat) :
  300 <= c <= 1300 ->
  preprocessRR (map Fin (repeat c m)) = map Fin (repeat c m).
Proof.
  intros Hc. unfold preprocessRR.
  destruct (length (map Fin (repeat c m)) <? 3)%nat; [reflexivity|].
  rewrite loop_valid; [reflexivity | | | now left].
  - apply Forall_forall. intros x Hx. apply repeat_spec in Hx. now subst.
  - apply smooth_repeat. lra.
Qed.

(** C5 at the input of fifty samples of 800 ms: the cleaned sequence has
    fifty samples, its integrated series is 0 everywhere, no pair is
    recorded, and the result is the number [NaN] obtained from 0/0, not
    [null]. *)
Theorem constant_window_NaN :
  calculateDfaAlpha1 (map Fin (repeat 800 50)) = Some NaN /\
  length (preprocessRR (map Fin (repeat 800 50))) = 50%nat /\
  log_pairs (integrate (preprocessRR (map Fin (repeat 800 50)))) = ([], []).
Proof.
  assert (P : preprocessRR (map Fin (repeat 800 50)) = map Fin (repeat 800 50))
    by (apply preprocessRR_repeat; lra).
  assert (L : length (map Fin (repeat 800 50)) = 50%nat)
    by now rewrite length_map, repeat_length.
  destruct (linear_series_NaN (repeat 800 50) 0 0) as [E1 E2].
  - rewrite repeat_length. lia.
  - intros k Hk. rewrite repeat_length in Hk.
    rewrite cumulative_repeat by exact Hk. ring.
  - unfold calculateDfaAlpha1. rewrite P, L.
    change (50 <? 50)%nat with false. cbv iota.
    rewrite E2. repeat split; assumption.
Qed.

(** ** A regular regression: two recorded scales give a finite alpha-1 *)

Lemma ln_10_pos : 0 < ln 10.
Proof. rewrite <- ln_1. apply ln_increasing; lra. Qed.

Lemma log10_Fin (a : R) : 0 < a -> log10 (Fin a) = Fin (log10R a).
Proof.
  intros H. unfold log10. now rewrite Rltb_false, Reqb_false by lra.
Qed.

Lemma log10R_inj (a b : R) : 0 < a -> 0 < b -> log10R a = log10R b -> a = b.
Proof.
  intros Ha Hb H. apply ln_inv; try assumption.
  unfold log10R, Rdiv in H.
  apply Rmult_eq_reg_r in H; [exact H|].
  apply Rinv_neq_0_compat. pose proof ln_10_pos. lra.
Qed.

(** The loop over the box sizes on a finite series no shorter than the
    largest box: the pairs of the recorded sizes, in order. *)
Lemma scale_fold_Fin (ys : list R) (sizes : list nat) (xs fs : list R) :
  (forall n, In n sizes -> (2 <= n <= length ys)%nat) ->
  fold_left (scale_step (map Fin ys)) sizes (map Fin xs, map Fin fs) =
  (map Fin (xs ++ map (fun n => log10R (INR n))
                    (filter (fun n => Rltb 0 (fluctuation ys n)) sizes)),
   map Fin (fs ++ map (fun n => log10R (fluctuation ys n))
                    (filter (fun n => Rltb 0 (fluctuation ys n)) sizes))).
Proof.
  revert xs fs. induction sizes as [|n sizes IH]; intros xs fs H.
  - simpl. now rewrite !app_nil_r.
  - cbn [fold_left filter]. unfold scale_step at 2.
    rewrite calculateF_n_Fin by (apply H; now left).
    unfold gt. cbn [lt].
    destruct (Rltb 0 (fluctuation ys n)) eqn:E; cbn [fst snd].
    + apply Rltb_iff in E. unfold of_nat.
      rewrite !log10_Fin;
        [| exact E | apply lt_0_INR; specialize (H n (or_introl eq_refl)); lia].
      replace (map Fin xs ++ [Fin (log10R (INR n))])
        with (map Fin (xs ++ [log10R (INR n)])) by now rewrite map_app.
      replace (map Fin fs ++ [Fin (log10R (fluctuation ys n))])
        with (map Fin (fs ++ [log10R (fluctuation ys n)]))
        by now rewrite map_app.
      rewrite IH by (intros; apply H; now right).
      cbn [map]. now rewrite <- !app_assoc.
    + apply IH. intros; apply H; now right.
Qed.

Lemma log_pairs_Fin (ys : list R) :
  (16 <= length ys)%nat ->
  log_pairs (map Fin ys) =
  (map Fin (map (fun n => log10R (INR n)) (recorded ys)),
   map Fin (map (fun n => log10R (fluctuation ys n)) (recorded ys))).
Proof.
  intros Hlen. unfold log_pairs.
  change (@nil number, @nil number) with (map Fin [], map Fin []).
  rewrite scale_fold_Fin; [reflexivity|].
  intros n Hn. apply boxSizes_range in Hn. lia.
Qed.

(** A sum of non-negative terms is at least each of its terms. *)
Lemma sum_upto_ge_term (f : nat -> R) (n j : nat) :
  (forall k, (k < n)%nat -> 0 <= f k) -> (j < n)%nat -> f j <= sum_upto f n.
Proof.
  induction n as [|n IH]; intros Hpos Hj; [lia|].
  cbn [sum_upto].
  assert (0 <= sum_upto f n) by (apply sum_upto_nonneg; intros; apply Hpos; lia).
  destruct (Nat.eq_dec j n) as [-> | Hne].
  - lra.
  - specialize (IH ltac:(intros; apply Hpos; lia) ltac:(lia)).
    specialize (Hpos n ltac:(lia)). lra.
Qed.

(** The denominator of the slope is positive when two abscissae differ. *)
Lemma regression_denominator_distinct (f : nat -> R) (n : nat) :
  (2 <= n)%nat -> f 0%nat <> f 1%nat ->
  0 < INR n * sum_upto (fun k => f k * f k) n - sum_upto f n * sum_upto f n.
Proof.
  intros Hn Hne. pose proof (INR_ge_2 n Hn) as Hn2.
  set (m := sum_upto f n / INR n).
  assert (E : INR n * sum_upto (fun k => f k * f k) n
              - sum_upto f n * sum_upto f n
              = INR n * sum_upto (fun k => (f k - m) * (f k - m)) n).
  { rewrite sum_centered_product. unfold m. field. lra. }
  rewrite E. apply Rmult_lt_0_compat; [lra|].
  assert (Hpos : forall k, (k < n)%nat -> 0 <= (f k - m) * (f k - m))
    by (intros; apply Rle_0_sqr).
  destruct (Req_dec_T (f 0%nat) m) as [E0 | N0].
  - apply Rlt_le_trans with ((f 1%nat - m) * (f 1%nat - m)).
    + assert (f 1%nat - m <> 0) by (rewrite <- E0; lra). nra.
    + apply (sum_upto_ge_term (fun k => (f k - m) * (f k - m))); [exact Hpos | lia].
  - apply Rlt_le_trans with ((f 0%nat - m) * (f 0%nat - m)).
    + assert (f 0%nat - m <> 0) by lra. nra.
    + apply (sum_upto_ge_term (fun k => (f k - m) * (f k - m))); [exact Hpos | lia].
Qed.

Lemma get_Fin_elt (rs : list R) (i : nat) :
  (i < length rs)%nat -> get (map Fin rs) i = Fin (elt rs i).
Proof.
  intros H. apply get_map_Fin. unfold elt. now apply nth_error_nth'.
Qed.

Lemma NoDup_boxSizes : NoDup boxSizes.
Proof.
  unfold boxSizes.
  repeat (constructor; [simpl; intros H; lia|]). constructor.
Qed.

(** The abscissae of the recorded scales are pairwise different. *)
Lemma NoDup_recorded_logs (ys : list R) :
  NoDup (map (fun n => log10R (INR n)) (recorded ys)).
Proof.
  apply NoDup_map_NoDup_ForallPairs.
  - intros a b Ha Hb Hab.
    apply filter_In in Ha, Hb. destruct Ha as [Ha _], Hb as [Hb _].
    apply boxSizes_range in Ha, Hb.
    apply INR_eq. apply log10R_inj; try (apply lt_0_INR; lia). exact Hab.
  - apply NoDup_filter, NoDup_boxSizes.
Qed.

(** With at least fifty finite cleaned samples and at least two recorded
    scales the result is a finite number. *)
Lemma alpha1_finite (rr : list number) (cs : list R) :
  preprocessRR rr = map Fin cs -> (50 <= length cs)%nat ->
  (2 <= length (recorded (integrated cs)))%nat ->
  exists alpha1 : R, calculateDfaAlpha1 rr = Some (Fin alpha1).
Proof.
  intros Hclean Hlen Hrec. unfold calculateDfaAlpha1.
  rewrite Hclean, length_map.
  assert (E : (length cs <? 50)%nat = false) by (apply Nat.ltb_ge; lia).
  rewrite E.
  assert (Hne : cs <> []) by (destruct cs; [simpl in Hlen; lia | discriminate]).
  rewrite (integrate_integrated cs Hne).
  rewrite log_pairs_Fin by (rewrite length_integrated; lia).
  cbn [fst snd].
  set (xs := map (fun n => log10R (INR n)) (recorded (integrated cs))).
  set (fs := map (fun n => log10R (fluctuation (integrated cs) n))
                 (recorded (integrated cs))).
  assert (Lx : length xs = length (recorded (integrated cs)))
    by (unfold xs; now rewrite length_map).
  assert (Lf : length fs = length (recorded (integrated cs)))
    by (unfold fs; now rewrite length_map).
  rewrite (linearRegression_Fin _ _ (elt xs) (elt fs) (length xs)).
  - eexists. reflexivity.
  - now rewrite length_map.
  - intros i Hi. split; apply get_Fin_elt; lia.
  - lia.
  - apply Rgt_not_eq, Rlt_gt.
    apply regression_denominator_distinct; [lia|].
    pose proof (NoDup_recorded_logs (integrated cs)) as ND. fold xs in ND.
    destruct xs as [|a [|b xs']]; simpl in Lx; try lia.
    unfold elt. cbn [nth]. inversion ND as [|? ? Hnotin _]; subst.
    intros ->. apply Hnotin. now left.
Qed.

(** A sum of non-negative terms that is zero has only zero terms. *)
Lemma sum_upto_zero_terms (f : nat -> R) (n j : nat) :
  (forall k, (k < n)%nat -> 0 <= f k) -> sum_upto f n = 0 -> (j < n)%nat ->
  f j = 0.
Proof.
  intros Hpos Hsum Hj.
  pose proof (sum_upto_ge_term f n j Hpos Hj).
  specialize (Hpos j Hj). lra.
Qed.

(** F(n) is positive as soon as the first three samples of the series are
    not on a line. *)
Lemma fluctuation_pos (ys : list R) (n : nat) :
  (3 <= n)%nat -> (n <= length ys)%nat ->
  (forall a b, ~ (elt ys 0 = b /\ elt ys 1 = a + b /\ elt ys 2 = 2 * a + b)) ->
  0 < fluctuation ys n.
Proof.
  intros Hn Hlen Hbent. unfold fluctuation.
  set (numBoxes := (length ys / n)%nat).
  assert (Hnb : (0 < numBoxes)%nat) by (apply Nat.div_str_pos; lia).
  assert (Hpos : 0 < INR (numBoxes * n)) by (apply lt_0_INR; nia).
  apply sqrt_lt_R0. apply Rdiv_lt_0_compat; [|exact Hpos].
  apply Rlt_le_trans with (box_rss (box ys n 0) n).
  - destruct (Rle_lt_or_eq_dec _ _ (box_rss_nonneg (box ys n 0) n))
      as [H | H]; [exact H|].
    exfalso. symmetry in H. unfold box_rss, rss in H.
    set (s := ols_slope (box ys n 0) n) in H.
    set (c := ols_intercept (box ys n 0) n) in H.
    assert (Z : forall k, (k < n)%nat -> box ys n 0 k = s * INR k + c).
    { intros k Hk.
      pose proof (sum_upto_zero_terms _ n k
                    ltac:(intros; apply Rle_0_sqr) H Hk) as Hz.
      cbv beta in Hz. apply Rsqr_0_uniq in Hz. lra. }
    apply (Hbent s c).
    pose proof (Z 0%nat ltac:(lia)) as Z0.
    pose proof (Z 1%nat ltac:(lia)) as Z1.
    pose proof (Z 2%nat ltac:(lia)) as Z2.
    unfold box in Z0, Z1, Z2. simpl in Z0, Z1, Z2.
    repeat split; lra.
  - apply (sum_upto_ge_term (fun i => box_rss (box ys n i) n)).
    + intros. apply box_rss_nonneg.
    + exact Hnb.
Qed.

Lemma mean_alternating : mean alternating = 810.
Proof.
  unfold mean, alternating. cbn [repeat concat app length].
  replace (INR 50) with 50 by (simpl; lra).
  unfold elt. cbn [sum_upto nth]. lra.
Qed.

Lemma integrated_alternating_start :
  elt (integrated alternating) 0 = -10 /\
  elt (integrated alternating) 1 = 0 /\
  elt (integrated alternating) 2 = -10.
Proof.
  assert (L : length alternating = 50%nat) by reflexivity.
  rewrite !elt_integrated by (rewrite L; lia).
  unfold cumulative. rewrite mean_alternating.
  unfold alternating, elt. cbn [repeat concat app sum_upto nth].
  repeat split; lra.
Qed.

Lemma smooth_alternating : smooth alternating.
Proof.
  unfold alternating. cbn [repeat concat app smooth].
  repeat split; unfold Rabs; destruct (Rcase_abs _); lra.
Qed.

(** The fifty alternating samples are all kept, the scales 4 and 5 (at
    least) are recorded, and the result is a finite number. *)
Example alternating_window_alpha1 :
  length (preprocessRR (map Fin alternating)) = 50%nat /\
  exists alpha1 : R, calculateDfaAlpha1 (map Fin alternating) = Some (Fin alpha1).
Proof.
  assert (L : length alternating = 50%nat) by reflexivity.
  assert (P : preprocessRR (map Fin alternating) = map Fin alternating).
  { unfold preprocessRR.
    destruct (length (map Fin alternating) <? 3)%nat; [reflexivity|].
    rewrite loop_valid; [reflexivity | | exact smooth_alternating | now left].
    unfold alternating. cbn [repeat concat app].
    repeat (constructor; [lra|]). constructor. }
  split; [now rewrite P, length_map|].
  apply (alpha1_finite _ alternating P); [lia|].
  assert (Hpos : forall n, (3 <= n <= 50)%nat ->
            Rltb 0 (fluctuation (integrated alternating) n) = true).
  { intros n Hn. apply Rltb_true. apply fluctuation_pos.
    - lia.
    - rewrite length_integrated, L. lia.
    - intros a b [H0 [H1 H2]].
      destruct integrated_alternating_start as [E0 [E1 E2]].
      rewrite E0 in H0. rewrite E1 in H1. rewrite E2 in H2. lra. }
  unfold recorded, boxSizes. cbn [filter].
  rewrite (Hpos 4%nat), (Hpos 5%nat) by lia.
  simpl. lia.
Qed.

(** Forty-nine valid samples are one short of a result. *)
Example forty_nine_samples :
  calculateDfaAlpha1 (map Fin (repeat 800 49)) = None.
Proof.
  unfold calculateDfaAlpha1.
  rewrite preprocessRR_repeat by lra.
  now rewrite length_map, repeat_length.
Qed.

(** ** The engine on binary64: concrete runs

    Runs of [Module Binary64], evaluated by the kernel on the same binary64
    operations the engine uses. *)

Section Binary64Runs.

Import PrimFloat.
Local Open Scope float_scope.

(** *** A constant offset changes F(n)

    On the ramp 0, 1, 2, 3 every sum of the regression is an integer, the
    fitted line is the ramp itself and F(4) is 0.  Raising every element by
    2^-50 gives four representable values (no rounding in the shift
    itself), but the sums of [linearRegression] now round: the fitted slope
    is 1 + 2^-51, the intercept 2^-52 instead of 2^-50, and F(4) is about
    5.66e-16. *)

Example shifted_ramp :
  map (fun y => y + 0x1p-50) [0; 1; 2; 3]
  = [0x1p-50; 0x1.0000000000004p+0; 0x1.0000000000002p+1;
     0x1.8000000000002p+1].
Proof. vm_compute. reflexivity. Qed.

Example shifted_ramp_fit :
  Binary64.linearRegression [0; 1; 2; 3]
    (map (fun y => y + 0x1p-50) [0; 1; 2; 3])
  = Binary64.MkFit 0x1.0000000000002p+0 0x1p-52.
Proof. vm_compute. reflexivity. Qed.

(** C8, counterexample: the series 0, 1, 2, 3, the box size 4 and the
    constant 2^-50.  F(4) of the series is 0, F(4) of the shifted series is
    not. *)
Lemma calculateF_n_offset_binary64 :
  Binary64.calculateF_n [0; 1; 2; 3] 4 = 0
  /\ Binary64.calculateF_n (map (fun y => y + 0x1p-50) [0; 1; 2; 3]) 4
     = 0x1.465655f122ff6p-51
  /\ Binary64.calculateF_n (map (fun y => y + 0x1p-50) [0; 1; 2; 3]) 4
     <> Binary64.calculateF_n [0; 1; 2; 3] 4.
Proof.
  split; [vm_compute; reflexivity|].
  split; [vm_compute; reflexivity|].
  intros H. apply (f_equal (ltb 0)) in H. vm_compute in H. discriminate.
Qed.

(** *** Rounding noise passes the test [Fn > 0]

    A window that is constant but for its last sample: 49 samples of 800
    then 820.  Its mean, 800.4, is not a binary64 value.  In exact
    arithmetic the integrated series is a straight line up to its last
    point, which lies in a complete box only for the sizes 5 and 10.  On
    binary64 the integrated series ends at 1.25 * 2^-40 instead of 0, and
    ten sizes have [Fn > 0]: for eight of them F(n) is below 2^-49. *)

Example preprocessRR_near_constant :
  Binary64.preprocessRR (repeat 800 49 ++ [820]) = repeat 800 49 ++ [820].
Proof. vm_compute. reflexivity. Qed.

Example meanRR_near_constant :
  Binary64.meanRR (repeat 800 49 ++ [820]) = 0x1.9033333333333p+9.
Proof. vm_compute. reflexivity. Qed.

Example integrate_near_constant_end :
  last (Binary64.integrate (repeat 800 49 ++ [820])) nan = 0x1.4p-40.
Proof. vm_compute. reflexivity. Qed.

Example recorded_near_constant :
  Binary64.recorded (Binary64.integrate (repeat 800 49 ++ [820]))
  = [5; 6; 7; 9; 10; 11; 12; 13; 14; 15]%nat.
Proof. vm_compute. reflexivity. Qed.

Example noise_near_constant :
  map (Binary64.calculateF_n (Binary64.integrate (repeat 800 49 ++ [820])))
    [5; 6; 7; 9; 10; 11; 12; 13; 14; 15]%nat
  = [0x1.c9f25c5bfedd9p+0; 0x1.a20bd700c2c3ep-50; 0x1.fabfa2e1bc555p-50;
     0x1.bd0b51d706d23p-50; 0x1.24e7595e85eddp+1; 0x1.722ce6412d85bp-51;
     0x1.ea33e2c83c14p-51; 0x1.90bac67a5361ep-51; 0x1.3cc8a99af5453p-51;
     0x1.bd0b51d706d23p-51].
Proof. vm_compute. reflexivity. Qed.

(** The arrays [logN] and [logFn] hold the logarithms of the recorded
    sizes and of their F(n), whatever [Math.log10] computes. *)
Lemma scale_fold_recorded (log10 : float -> float) (series : list float)
    (sizes : list nat) : forall st : list float * list float,
  fold_left (Binary64.scale_step log10 series) sizes st
  = (fst st
       ++ map (fun n => log10 (Binary64.of_nat n))
            (filter (fun n => Binary64.gt (Binary64.calculateF_n series n) 0)
               sizes),
     snd st
       ++ map (fun n => log10 (Binary64.calculateF_n series n))
            (filter (fun n => Binary64.gt (Binary64.calculateF_n series n) 0)
               sizes)).
Proof.
  induction sizes as [|n sizes IH]; intros [logN logFn].
  - cbn [fold_left filter map fst snd]. now rewrite !app_nil_r.
  - cbn [fold_left filter]. rewrite IH. unfold Binary64.scale_step.
    destruct (Binary64.gt (Binary64.calculateF_n series n) 0);
      cbn [fst snd map]; [now rewrite <- !app_assoc | reflexivity].
Qed.

Lemma log_pairs_recorded (log10 : float -> float) (series : list float) :
  Binary64.log_pairs log10 series
  = (map (fun n => log10 (Binary64.of_nat n)) (Binary64.recorded series),
     map (fun n => log10 (Binary64.calculateF_n series n))
       (Binary64.recorded series)).
Proof.
  unfold Binary64.log_pairs. now rewrite scale_fold_recorded.
Qed.

(** *** The runs behind C2, C5 and C6

    The inputs on which the exact reading departs from the specification
    give the same on binary64. *)

Example zero_next_sample_clamps_binary64 :
  Binary64.preprocessRR [800; 50; 0] = [800; 800; 800].
Proof. vm_compute. reflexivity. Qed.

Example NaN_accepted_binary64 :
  Binary64.preprocessRR [800; nan; 810] = [800; nan; 810].
Proof. vm_compute. reflexivity. Qed.

Example constant_window_binary64 (log10 : float -> float) :
  Binary64.recorded (Binary64.integrate (repeat 800 50)) = []
  /\ Binary64.calculateDfaAlpha1 log10 (repeat 800 50) = Some nan.
Proof. split; vm_compute; reflexivity. Qed.

Example forty_nine_samples_binary64 (log10 : float -> float) :
  Binary64.calculateDfaAlpha1 log10 (repeat 800 49) = None.
Proof. vm_compute. reflexivity. Qed.

End Binary64Runs.

(** * Further properties of the module *)

(** ** The validator: length and timeline *)

Lemma step_length (filtered : list number) (val : number)
    (next : option number) :
  (length filtered <= length (step filtered val next) <= S (length filtered))%nat.
Proof.
  unfold step, correct.
  destruct (isValid filtered val); [rewrite length_app; simpl; lia|].
  destruct (truthy_opt _ && truthy_opt next);
    [rewrite length_app; simpl; lia|].
  destruct (truthy_opt _); [rewrite length_app; simpl; lia | lia].
Qed.

Lemma loop_length (rest filtered : list number) :
  (length filtered <= length (loop filtered rest)
   <= length filtered + length rest)%nat.
Proof.
  revert filtered. induction rest as [|v rest IH]; intros filtered.
  - simpl. lia.
  - cbn [loop length].
    pose proof (step_length filtered v (hd_error rest)).
    specialize (IH (step filtered v (hd_error rest))). lia.
Qed.

Lemma preprocessRR_length_bound (rr : list number) :
  (length (preprocessRR rr) <= length rr)%nat.
Proof.
  unfold preprocessRR. destruct (length rr <? 3)%nat; [lia|].
  pose proof (loop_length rr []). simpl in *. lia.
Qed.

(** X1. The cleaned sequence is never longer than the input, whatever the
    input holds, and it is the input itself or starts from nothing: the
    loop only appends. *)
Theorem preprocessRR_length_le (rr : list number) :
  (length (preprocessRR rr) <= length rr)%nat.
Proof. exact (preprocessRR_length_bound rr). Qed.

(** While nothing has been accepted, samples out of range leave no trace. *)
Lemma loop_skip_invalid (pre : list R) (rest : list number) :
  Forall (fun r => ~ 300 <= r <= 1300) pre ->
  loop [] (map Fin pre ++ rest) = loop [] rest.
Proof.
  induction pre as [|p pre IH]; intros H; [reflexivity|].
  inversion H as [|? ? Hp Hpre]; subst.
  cbn [map app loop]. unfold step.
  destruct (isValid [] (Fin p)) eqn:E.
  - apply isValid_empty in E. contradiction.
  - rewrite correct_empty. now apply IH.
Qed.

Lemma preprocessRR_empty_iff_helper (rs : list R) :
  (3 <= length rs)%nat ->
  preprocessRR (map Fin rs) = [] <->
  Forall (fun r => ~ 300 <= r <= 1300) rs.
Proof.
  intros Hlen. unfold preprocessRR.
  assert (E : (length (map Fin rs) <? 3)%nat = false)
    by (apply Nat.ltb_ge; rewrite length_map; lia).
  rewrite E. clear E Hlen. split.
  - induction rs as [|v rs IH]; intros H; [constructor|].
    cbn [map loop] in H. unfold step in H.
    destruct (isValid [] (Fin v)) eqn:Ev.
    + exfalso.
      pose proof (loop_length (map Fin rs) ([] ++ [Fin v])) as L.
      rewrite H in L. simpl in L. lia.
    + rewrite correct_empty in H. constructor; [|now apply IH].
      intros Hv. apply isValid_empty in Hv. congruence.
  - intros H. rewrite <- (app_nil_r (map Fin rs)).
    now rewrite loop_skip_invalid.
Qed.

(** X2. With at least three real samples, the cleaned sequence is empty
    exactly when no sample lies in [300, 1300]. *)
Theorem preprocessRR_empty_iff (rs : list R) :
  (3 <= length rs)%nat ->
  preprocessRR (map Fin rs) = [] <->
  Forall (fun r => ~ 300 <= r <= 1300) rs.
Proof. exact (preprocessRR_empty_iff_helper rs). Qed.

Lemma preprocessRR_empty_iff_witness :
  preprocessRR (map Fin [1500; 200; 1400]) = [] <->
  Forall (fun r => ~ 300 <= r <= 1300) [1500; 200; 1400].
Proof.
  apply (preprocessRR_empty_iff [1500; 200; 1400]). simpl. lia.
Defined.

(** Once something has been accepted, a sample that is not negative adds
    exactly one positive value. *)
Lemma step_grows (filtered : list number) (v : R) (next : option R) :
  filtered <> [] -> Forall positive filtered -> 0 <= v ->
  match next with Some nx => 0 <= nx | None => True end ->
  exists q, 0 < q /\
    step filtered (Fin v) (option_map Fin next) = filtered ++ [Fin q].
Proof.
  intros Hne Hpos Hv Hnext.
  destruct (last_positive _ Hpos Hne) as [p [Hlast Hp]].
  unfold step. destruct (isValid filtered (Fin v)) eqn:E.
  - exists v. split; [|reflexivity].
    apply (isValid_after _ v p Hne Hlast Hp) in E. lra.
  - now apply (correct_nonneg filtered p next).
Qed.

Lemma loop_grows (rest : list R) : forall filtered : list number,
  filtered <> [] -> Forall positive filtered ->
  Forall (fun r => 0 <= r) rest ->
  exists added : list R,
    length added = length rest /\ Forall (fun r => 0 < r) added /\
    loop filtered (map Fin rest) = filtered ++ map Fin added.
Proof.
  induction rest as [|v rest IH]; intros filtered Hne Hpos Hrest.
  - exists []. repeat split; [constructor | simpl; now rewrite app_nil_r].
  - inversion Hrest as [|? ? Hv Hrest']; subst.
    cbn [map loop].
    assert (Hnext : match hd_error rest with
                    | Some nx => 0 <= nx | None => True end).
    { destruct rest as [|nx rest']; [exact I|].
      now inversion Hrest'. }
    assert (Ehd : hd_error (map Fin rest) = option_map Fin (hd_error rest))
      by now destruct rest.
    rewrite Ehd.
    destruct (step_grows filtered v (hd_error rest) Hne Hpos Hv Hnext)
      as [q [Hq ->]].
    destruct (IH (filtered ++ [Fin q])) as [added [Hlen [Hadd Hloop]]].
    + now destruct filtered.
    + apply Forall_app. split; [assumption | now repeat constructor].
    + exact Hrest'.
    + exists (q :: added). split; [simpl; lia|]. split; [now constructor|].
      rewrite Hloop, <- app_assoc. reflexivity.
Qed.

(** X3. The timeline is kept from the first accepted sample on.  On at least
    three real samples, none negative, whose first sample in range is [v],
    the cleaned sequence starts with [v] and then holds exactly one
    positive value for every later sample: only the samples before [v] are
    dropped. *)
Theorem preprocessRR_timeline (pre post : list R) (v : R) :
  (3 <= length (pre ++ v :: post))%nat ->
  Forall (fun r => 0 <= r /\ ~ 300 <= r <= 1300) pre ->
  300 <= v <= 1300 ->
  Forall (fun r => 0 <= r) post ->
  exists later : list R,
    preprocessRR (map Fin (pre ++ v :: post)) = Fin v :: map Fin later /\
    length later = length post /\
    Forall (fun r => 0 < r) later.
Proof.
  intros Hlen Hpre Hv Hpost. unfold preprocessRR.
  assert (E : (length (map Fin (pre ++ v :: post)) <? 3)%nat = false)
    by (apply Nat.ltb_ge; rewrite length_map; lia).
  rewrite E, map_app, loop_skip_invalid.
  2:{ eapply Forall_impl; [|exact Hpre]. now intros r [_ H]. }
  cbn [map loop]. unfold step.
  assert (Hvalid : isValid [] (Fin v) = true) by now apply isValid_empty.
  rewrite Hvalid. cbn [app].
  destruct (loop_grows post [Fin v]) as [later [L1 [L2 L3]]].
  - discriminate.
  - repeat constructor. simpl. lra.
  - exact Hpost.
  - exists later. now rewrite L3.
Qed.

Lemma preprocessRR_timeline_witness :
  exists later : list R,
    preprocessRR (map Fin ([0; 250] ++ 800 :: [50; 0; 2000; 810]))
    = Fin 800 :: map Fin later /\
    length later = length [50; 0; 2000; 810] /\
    Forall (fun r => 0 < r) later.
Proof.
  apply (preprocessRR_timeline [0; 250] [50; 0; 2000; 810] 800).
  - simpl. lia.
  - repeat constructor; lra.
  - lra.
  - repeat constructor; lra.
Defined.



(** ** [calculateDfaAlpha1]: windows without a result *)

Lemma few_cleaned_null (rr : list number) :
  (length (preprocessRR rr) < 50)%nat -> calculateDfaAlpha1 rr = None.
Proof.
  intros H. unfold calculateDfaAlpha1.
  apply Nat.ltb_lt in H. now rewrite H.
Qed.

(** X5. A window of fewer than fifty raw samples gives [null], whatever it
    holds. *)
Theorem short_window_null (rr : list number) :
  (length rr < 50)%nat -> calculateDfaAlpha1 rr = None.
Proof.
  intros H. apply few_cleaned_null.
  pose proof (preprocessRR_length_bound rr) as L. lia.
Qed.

Lemma short_window_null_witness :
  calculateDfaAlpha1 [Fin 800; NaN; PInf] = None.
Proof. apply short_window_null. simpl. lia. Defined.

(** X6. A window of real samples none of which lies in [300, 1300] (a heart
    rate that stays under 46 or over 200 beats per minute) gives [null],
    however long it is. *)
Theorem out_of_range_window_null (rs : list R) :
  Forall (fun r => ~ 300 <= r <= 1300) rs ->
  calculateDfaAlpha1 (map Fin rs) = None.
Proof.
  intros H.
  destruct (Nat.lt_ge_cases (length rs) 3) as [Hs | Hl].
  - apply few_cleaned_null.
    pose proof (preprocessRR_length_bound (map Fin rs)) as L.
    rewrite length_map in L. lia.
  - apply few_cleaned_null.
    rewrite (proj2 (preprocessRR_empty_iff_helper rs Hl) H). simpl. lia.
Qed.

Lemma out_of_range_window_null_witness :
  calculateDfaAlpha1 (map Fin (repeat 1400 200)) = None.
Proof.
  apply out_of_range_window_null.
  apply Forall_forall. intros r Hr. apply repeat_spec in Hr. subst. lra.
Defined.

(** ** [calculateF_n]: edge cases *)

(** X12. A series shorter than the box has no complete box, and F(n) is
    [NaN] (0/0), whatever the series holds. *)
Theorem calculateF_n_short (series : list number) (n : nat) :
  (length series < n)%nat -> calculateF_n series n = NaN.
Proof.
  intros H. unfold calculateF_n. rewrite Nat.div_small by exact H.
  cbn [seq fold_left Nat.mul]. unfold of_nat. cbn [INR div].
  rewrite (Reqb_true 0 0) by reflexivity. reflexivity.
Qed.

Lemma calculateF_n_short_witness :
  calculateF_n [Fin 1; Fin 2; NaN] 4 = NaN.
Proof. apply calculateF_n_short. simpl. lia. Defined.

Lemma get_slice_prefix (ys : list R) (tail : list number) (n i k : nat) :
  (i * n + n <= length ys)%nat -> (k < n)%nat ->
  get (slice (map Fin ys ++ tail) (i * n) (i * n + n)) k
  = Fin (box ys n i k).
Proof.
  intros Hlen Hk. unfold get, slice, box, elt.
  replace (i * n + n - i * n)%nat with n by lia.
  rewrite nth_firstn.
  destruct (k <? n)%nat eqn:E; [|apply Nat.ltb_ge in E; lia].
  rewrite nth_skipn, app_nth1 by (rewrite length_map; lia).
  rewrite (nth_indep _ NaN (Fin 0)) by (rewrite length_map; lia).
  now rewrite map_nth.
Qed.

Lemma boxes_fold_prefix (ys : list R) (tail : list number) (n m : nat) :
  (2 <= n)%nat -> (m * n <= length ys)%nat ->
  fold_left (box_step (map Fin ys ++ tail) n) (seq 0 m) (Fin 0)
  = Fin (sum_upto (fun i => box_rss (box ys n i) n) m).
Proof.
  intros Hn. induction m as [|m IH]; intros Hlen; [reflexivity|].
  rewrite seq_S, fold_left_app, IH by lia.
  cbn [fold_left plus]. unfold box_step.
  rewrite (linearRegression_Fin _ _ INR (box ys n m) n).
  - rewrite (residual_fold _ (box ys n m)).
    + unfold box_rss.
      now rewrite (code_slope_ols _ n Hn), (code_intercept_ols _ n Hn).
    + intros k Hk. apply get_slice_prefix; [lia | exact Hk].
  - now rewrite length_map, length_seq.
  - intros k Hk. split;
      [now apply get_local_index | apply get_slice_prefix; [lia | exact Hk]].
  - lia.
  - pose proof (regression_denominator n Hn). lra.
Qed.

(** X13. What follows the last complete box is never read: after a finite
    series made of complete boxes, fewer than n further elements, whatever
    they are ([NaN] included), leave F(n) unchanged. *)
Theorem calculateF_n_remainder (ys : list R) (tail : list number)
    (n m : nat) :
  (2 <= n)%nat -> (1 <= m)%nat -> length ys = (m * n)%nat ->
  (length tail < n)%nat ->
  calculateF_n (map Fin ys ++ tail) n = calculateF_n (map Fin ys) n.
Proof.
  intros Hn Hm Hlen Htail.
  rewrite (calculateF_n_Fin ys n) by nia.
  unfold calculateF_n, fluctuation.
  rewrite length_app, length_map, Hlen.
  rewrite Nat.div_add_l, (Nat.div_small (length tail) n), Nat.add_0_r by lia.
  rewrite Nat.div_mul by lia.
  rewrite (boxes_fold_prefix ys tail n m Hn) by lia.
  unfold of_nat.
  assert (Hpos : 0 < INR (m * n)) by (apply lt_0_INR; nia).
  rewrite div_Fin by lra.
  apply sqrt_Fin.
  apply Rmult_le_pos; [|apply Rlt_le, Rinv_0_lt_compat, Hpos].
  apply sum_upto_nonneg. intros. apply box_rss_nonneg.
Qed.

Lemma calculateF_n_remainder_witness :
  calculateF_n (map Fin [0; 1; 0; 2; 5; 3] ++ [NaN; PInf]) 3
  = calculateF_n (map Fin [0; 1; 0; 2; 5; 3]) 3.
Proof.
  apply (calculateF_n_remainder [0; 1; 0; 2; 5; 3] [NaN; PInf] 3 2);
    simpl; lia.
Defined.

(** ** The sensor packet parser *)

Lemma flag_tests (flags : byte) :
  negb (N.land (Byte.to_N flags) 1 =? 0)%N = flag flags 0 /\
  negb (N.land (Byte.to_N flags) 16 =? 0)%N = flag flags 4 /\
  negb (N.land (Byte.to_N flags) 8 =? 0)%N = flag flags 3.
Proof. destruct flags; repeat split; reflexivity. Qed.

Lemma rrMs_Fin (rrRaw : N) :
  rrMs rrRaw = Fin (IZR (Z.of_N rrRaw) / 1024 * 1000).
Proof. unfold rrMs, of_N. now rewrite div_Fin by lra. Qed.

Lemma list_pairs_ind (A : Type) (P : list A -> Prop) :
  P [] -> (forall a, P [a]) -> (forall a b l, P l -> P (a :: b :: l)) ->
  forall l, P l.
Proof.
  intros H0 H1 H2.
  assert (H : forall l, P l /\ forall a, P (a :: l)).
  { induction l as [|b l [IH1 IH2]]; split; auto. }
  intros l. apply H.
Qed.

Lemma read_intervals_le_bytes (fields : list (byte * byte)) :
  forall acc,
  read_intervals (le_bytes fields) acc
  = Some (acc ++ map (fun f => Fin (interval_ms f)) fields).
Proof.
  induction fields as [|[lo hi] fields IH]; intros acc.
  - simpl. now rewrite app_nil_r.
  - cbn [le_bytes flat_map app fst snd read_intervals].
    change (flat_map (fun f => [fst f; snd f]) fields) with (le_bytes fields).
    rewrite IH, rrMs_Fin, <- app_assoc. reflexivity.
Qed.

(** The loop ends without a throw exactly on an even number of bytes, and
    then it has read them two by two. *)
Lemma read_intervals_spec (rest : list byte) :
  forall acc,
  (read_intervals rest acc = None <-> Nat.odd (length rest) = true) /\
  (forall out, read_intervals rest acc = Some out ->
     exists fields, rest = le_bytes fields /\
       out = acc ++ map (fun f => Fin (interval_ms f)) fields).
Proof.
  induction rest as [|a|lo hi rest IH] using list_pairs_ind; intros acc.
  - split; [split; discriminate|].
    intros out H. injection H as <-. exists []. now rewrite app_nil_r.
  - split; [split; reflexivity | discriminate].
  - cbn [read_intervals length].
    destruct (IH (acc ++ [rrMs (Byte.to_N lo + 256 * Byte.to_N hi)]))
      as [I1 I2].
    split.
    + rewrite I1. now rewrite Nat.odd_succ_succ.
    + intros out H. destruct (I2 out H) as [fields [-> ->]].
      exists ((lo, hi) :: fields). split; [reflexivity|].
      cbn [map]. rewrite rrMs_Fin, <- app_assoc. reflexivity.
Qed.

(** X19. A packet laid out as the Heart Rate Measurement characteristic
    says (flags, heart rate on one byte or two as bit 0 says, two bytes of
    energy when bit 3 is set, then 16-bit intervals) is decoded field by
    field: the heart rate is the little-endian value of its field, and the
    intervals are the 16-bit values scaled by 1000/1024, or none when
    bit 4 is clear. *)
Theorem parseHeartRate_layout (flags : byte) (hr energy : list byte)
    (fields : list (byte * byte)) :
  length hr = hr_width flags -> length energy = energy_width flags ->
  parseHeartRate (flags :: hr ++ energy ++ le_bytes fields)
  = Some (le_value hr,
          if flag flags 4 then map (fun f => Fin (interval_ms f)) fields
          else []).
Proof.
  intros Hhr Hen. unfold parseHeartRate.
  cbn [getUint8 nth_error option_map].
  destruct (flag_tests flags) as [-> [-> ->]].
  unfold hr_width in Hhr. unfold energy_width in Hen.
  destruct (flag flags 0), (flag flags 3), (flag flags 4);
    repeat match goal with
      | H : length ?l = _ |- _ =>
          destruct l as [|? [|? [|? ?]]]; try discriminate H; clear H
      end;
    cbn [app getUint8 getUint16 nth_error option_map Nat.add skipn le_value];
    rewrite ?read_intervals_le_bytes; reflexivity.
Qed.

Lemma parseHeartRate_layout_witness :
  parseHeartRate ("016"%byte :: ["048"%byte] ++ [] ++ le_bytes [("000"%byte, "003"%byte)])
  = Some (le_value ["048"%byte],
          if flag "016"%byte 4
          then map (fun f => Fin (interval_ms f)) [("000"%byte, "003"%byte)]
          else []).
Proof.
  apply (parseHeartRate_layout "016"%byte ["048"%byte] []); reflexivity.
Defined.

(** A usual packet: flags 0x10, 72 beats per minute, one interval of
    768/1024 s. *)
Example parseHeartRate_example :
  parseHeartRate ["016"%byte; "072"%byte; "000"%byte; "003"%byte]
  = Some (72%N, [Fin 750]).
Proof.
  unfold parseHeartRate, getUint8, getUint16.
  cbn [nth_error option_map].
  change (negb (N.land (Byte.to_N "016") 1 =? 0)%N) with false.
  change (negb (N.land (Byte.to_N "016") 16 =? 0)%N) with true.
  change (negb (N.land (Byte.to_N "016") 8 =? 0)%N) with false.
  cbn [nth_error option_map Nat.add skipn read_intervals app].
  rewrite rrMs_Fin.
  change (Z.of_N (Byte.to_N "000" + 256 * Byte.to_N "003")) with 768%Z.
  change (Byte.to_N "072") with 72%N.
  repeat f_equal. lra.
Qed.

Lemma interval_ms_range (f : byte * byte) : 0 <= interval_ms f < 64000.
Proof.
  unfold interval_ms.
  pose proof (Byte.to_N_bounded (fst f)) as H1.
  pose proof (Byte.to_N_bounded (snd f)) as H2.
  assert (Hz : (0 <= Z.of_N (Byte.to_N (fst f) + 256 * Byte.to_N (snd f))
                <= 65535)%Z) by lia.
  destruct Hz as [Hlo Hhi]. apply IZR_le in Hlo, Hhi. lra.
Qed.

Lemma getUint8_bound (data : list byte) (offset : nat) (v : N) :
  getUint8 data offset = Some v -> (v <= 255)%N.
Proof.
  unfold getUint8. destruct (nth_error data offset); [|discriminate].
  intros H. injection H as <-. apply Byte.to_N_bounded.
Qed.

Lemma getUint16_bound (data : list byte) (offset : nat) (v : N) :
  getUint16 data offset = Some v -> (v <= 65535)%N.
Proof.
  unfold getUint16.
  destruct (nth_error data offset) as [lo|]; [|discriminate].
  destruct (nth_error data (S offset)) as [hi|]; [|discriminate].
  intros H.
  assert (E : v = (Byte.to_N lo + 256 * Byte.to_N hi)%N) by congruence.
  pose proof (Byte.to_N_bounded lo). pose proof (Byte.to_N_bounded hi). lia.
Qed.

(** X20. Whatever the bytes of a packet that is decoded, the heart rate is
    at most 65535 and every interval is a finite number of milliseconds in
    [0, 64000), one per pair of bytes from the interval offset on; [NaN],
    negative values and infinities never come out of the parser. *)
Theorem parseHeartRate_ranges (data : list byte) (heartRate : N)
    (rrIntervals : list number) :
  parseHeartRate data = Some (heartRate, rrIntervals) ->
  (heartRate <= 65535)%N /\
  exists (flags : byte) (fields : list (byte * byte)),
    hd_error data = Some flags /\
    (flag flags 4 = true -> skipn (rr_offset flags) data = le_bytes fields) /\
    (flag flags 4 = false -> fields = []) /\
    rrIntervals = map (fun f => Fin (interval_ms f)) fields /\
    Forall (fun r => 0 <= r < 64000) (map interval_ms fields).
Proof.
  unfold parseHeartRate. destruct data as [|flags data]; [discriminate|].
  cbn [getUint8 nth_error option_map hd_error].
  destruct (flag_tests flags) as [-> [-> ->]].
  unfold rr_offset, hr_width, energy_width.
  assert (Hfields : forall fields, Forall (fun r => 0 <= r < 64000)
                                     (map interval_ms fields)).
  { intros fields. apply Forall_forall. intros r Hr.
    apply in_map_iff in Hr. destruct Hr as [f [<- _]].
    apply interval_ms_range. }
  assert (Hhr : forall hr,
            (if flag flags 0
             then option_map (fun hr => (hr, (1 + 2)%nat))
                    (getUint16 (flags :: data) 1)
             else option_map (fun hr => (hr, (1 + 1)%nat))
                    (option_map Byte.to_N (nth_error (flags :: data) 1)))
            = Some hr ->
            (fst hr <= 65535)%N /\
            snd hr = (1 + (if flag flags 0 then 2 else 1))%nat).
  { intros [hr off]. destruct (flag flags 0).
    - destruct (getUint16 (flags :: data) 1) as [v|] eqn:Ev; [|discriminate].
      intros E. injection E as <- <-.
      split; [exact (getUint16_bound _ _ _ Ev) | reflexivity].
    - destruct (nth_error (flags :: data) 1) as [b|]; [|discriminate].
      intros E. injection E as <- <-.
      split; [|reflexivity].
      pose proof (Byte.to_N_bounded b). cbn [fst]. lia. }
  destruct (if flag flags 0 then _ else _) as [[hr off]|]; [|discriminate].
  destruct (Hhr (hr, off) eq_refl) as [Hb Hoff]. cbn [fst snd] in Hb, Hoff.
  subst off.
  destruct (flag flags 4) eqn:F4.
  - destruct (read_intervals _ []) as [out|] eqn:Er; [|discriminate].
    intros H. injection H as <- <-.
    destruct (proj2 (read_intervals_spec _ []) out Er) as [fields [E ->]].
    split; [exact Hb|]. exists flags, fields.
    split; [reflexivity|].
    split; [intros _; rewrite <- E; destruct (flag flags 3); f_equal; lia|].
    split; [intros X; congruence|]. split; [reflexivity | apply Hfields].
  - intros H. injection H as <- <-.
    split; [exact Hb|]. exists flags, [].
    split; [reflexivity|]. split; [intros X; congruence|].
    split; [reflexivity|]. split; [reflexivity | constructor].
Qed.

Lemma parseHeartRate_ranges_witness :
  (72 <= 65535)%N /\
  exists (flags : byte) (fields : list (byte * byte)),
    hd_error ["016"%byte; "072"%byte; "000"%byte; "003"%byte] = Some flags /\
    (flag flags 4 = true ->
     skipn (rr_offset flags) ["016"%byte; "072"%byte; "000"%byte; "003"%byte]
     = le_bytes fields) /\
    (flag flags 4 = false -> fields = []) /\
    [Fin 750] = map (fun f => Fin (interval_ms f)) fields /\
    Forall (fun r => 0 <= r < 64000) (map interval_ms fields).
Proof.
  exact (parseHeartRate_ranges _ _ _ parseHeartRate_example).
Defined.

(** X21. The parser throws (and the packet is lost) in exactly three
    cases: the packet is empty, it is too short for the heart-rate field
    its flags announce, or bit 4 is set and an odd number of bytes follows
    the interval offset.  A packet that stops before the interval offset
    is decoded, with no interval. *)
Theorem parseHeartRate_throws_iff (data : list byte) :
  parseHeartRate data = None <->
  match data with
  | [] => True
  | flags :: _ =>
      (length data < 1 + hr_width flags)%nat \/
      (flag flags 4 = true /\
       Nat.odd (length data - rr_offset flags) = true)
  end.
Proof.
  destruct data as [|flags rest]; [split; [trivial | reflexivity]|].
  unfold parseHeartRate. cbn [getUint8 nth_error option_map].
  destruct (flag_tests flags) as [-> [-> ->]].
  unfold rr_offset, hr_width, energy_width.
  assert (Hodd : forall off,
            read_intervals (skipn off (flags :: rest)) [] = None <->
            Nat.odd (length (flags :: rest) - off) = true).
  { intros off. rewrite <- length_skipn.
    apply (proj1 (read_intervals_spec _ [])). }
  assert (Hsome : forall off,
            Nat.odd (length (flags :: rest) - off) = false ->
            exists out, read_intervals (skipn off (flags :: rest)) [] = Some out).
  { intros off H.
    destruct (read_intervals (skipn off (flags :: rest)) []) as [out|] eqn:E;
      [now exists out|].
    apply Hodd in E. congruence. }
  destruct (flag flags 0).
  - unfold getUint16. cbn [nth_error].
    destruct rest as [|a [|b rest]]; cbn [nth_error option_map length].
    + split; [left; lia | reflexivity].
    + split; [left; lia | reflexivity].
    + destruct (flag flags 4).
      * set (off := if flag flags 3 then (1 + 2 + 2)%nat else (1 + 2)%nat).
        assert (Eoff : off = (1 + 2 + (if flag flags 3 then 2 else 0))%nat)
          by (unfold off; destruct (flag flags 3); lia).
        rewrite <- Eoff.
        destruct (Nat.odd (length (flags :: a :: b :: rest) - off)) eqn:O.
        -- rewrite (proj2 (Hodd off) O). split; [|reflexivity].
           intros _. right. split; [reflexivity | exact O].
        -- destruct (Hsome off O) as [out ->].
           split; [discriminate|]. intros [H | [_ H]]; [simpl in H; lia|].
           simpl in H, O. congruence.
      * split; [discriminate|].
        intros [H | [H _]]; [simpl in H; lia | discriminate].
  - unfold getUint8.
    destruct rest as [|a rest]; cbn [nth_error option_map length].
    + split; [left; lia | reflexivity].
    + destruct (flag flags 4).
      * set (off := if flag flags 3 then (1 + 1 + 2)%nat else (1 + 1)%nat).
        assert (Eoff : off = (1 + 1 + (if flag flags 3 then 2 else 0))%nat)
          by (unfold off; destruct (flag flags 3); lia).
        rewrite <- Eoff.
        destruct (Nat.odd (length (flags :: a :: rest) - off)) eqn:O.
        -- rewrite (proj2 (Hodd off) O). split; [|reflexivity].
           intros _. right. split; [reflexivity | exact O].
        -- destruct (Hsome off O) as [out ->].
           split; [discriminate|]. intros [H | [_ H]]; [simpl in H; lia|].
           simpl in H, O. congruence.
      * split; [discriminate|].
        intros [H | [H _]]; [simpl in H; lia | discriminate].
Qed.


(** ** The data callback of [App]: the rolling window *)

Lemma slice_last_all (A : Type) (n : nat) (a : list A) :
  (length a <= n)%nat -> slice_last n a = a.
Proof.
  intros H. unfold slice_last.
  replace (length a - n)%nat with 0%nat by lia. reflexivity.
Qed.

Lemma length_slice_last (A : Type) (n : nat) (a : list A) :
  length (slice_last n a) = Nat.min n (length a).
Proof. unfold slice_last. rewrite length_skipn. lia. Qed.

Lemma slice_last_app (A : Type) (n : nat) (xs ys : list A) :
  slice_last n (slice_last n xs ++ ys) = slice_last n (xs ++ ys).
Proof.
  destruct (Nat.le_gt_cases (length xs) n) as [H | H].
  - now rewrite (slice_last_all A n xs H).
  - unfold slice_last.
    rewrite length_app, length_skipn, length_app.
    replace (length xs - (length xs - n) + length ys - n)%nat
      with (length ys) by lia.
    replace (length xs + length ys - n)%nat
      with (length ys + (length xs - n))%nat by lia.
    rewrite <- skipn_skipn. f_equal.
    rewrite skipn_app.
    replace (length xs - n - length xs)%nat with 0%nat by lia.
    reflexivity.
Qed.

Lemma slice_last_slice_last (A : Type) (n m : nat) (a : list A) :
  (n <= m)%nat -> slice_last n (slice_last m a) = slice_last n a.
Proof.
  intros H. unfold slice_last. rewrite length_skipn, skipn_skipn.
  f_equal. lia.
Qed.

(** The buffer after one callback. *)
Lemma onData_buffer (now : Z) (st : AppState) (hr : N) (rr : list number) :
  (length (rrBuffer st) <= 250)%nat ->
  rrBuffer (onData now st hr rr) = slice_last 250 (rrBuffer st ++ rr).
Proof.
  intros Hb. unfold onData, DFA_WINDOW_WIDTH.
  destruct rr as [|x rr].
  - cbn [length Nat.ltb Nat.leb rrBuffer]. rewrite app_nil_r.
    now rewrite slice_last_all.
  - change (0 <? length (x :: rr))%nat with true. cbv iota.
    set (b := rrBuffer st ++ x :: rr).
    assert (E : (if (200 + 50 <? length b)%nat
                 then slice_last (200 + 50) b else b) = slice_last 250 b).
    { destruct (200 + 50 <? length b)%nat eqn:L; [reflexivity|].
      apply Nat.ltb_ge in L. now rewrite slice_last_all by lia. }
    rewrite E.
    destruct (200 <=? length (slice_last 250 b))%nat;
      [destruct (calculateDfaAlpha1 _)|]; reflexivity.
Qed.

Lemma run_app (st : AppState) (xs ys : list notification) :
  run st (xs ++ ys) = run (run st xs) ys.
Proof. unfold run. apply fold_left_app. Qed.

Lemma received_app (xs ys : list notification) :
  received (xs ++ ys) = received xs ++ received ys.
Proof. unfold received. now rewrite map_app, concat_app. Qed.

Lemma received_one (n : notification) : received [n] = note_rr n.
Proof. unfold received. cbn [map concat]. apply app_nil_r. Qed.

Lemma run_buffer (notes : list notification) :
  rrBuffer (run initialState notes) = slice_last 250 (received notes).
Proof.
  induction notes as [|n notes IH] using rev_ind; [reflexivity|].
  rewrite run_app, received_app, received_one. cbn [run fold_left].
  rewrite onData_buffer.
  - fold (run initialState notes). rewrite IH.
    apply slice_last_app.
  - fold (run initialState notes). rewrite IH, length_slice_last. lia.
Qed.

(** X22. Whatever the notifications, the buffer holds the last 250
    intervals received (all of them while there are fewer), in order: it
    never grows beyond 250, and only the oldest intervals are forgotten. *)
Theorem buffer_is_last_250 (notes : list notification) :
  rrBuffer (run initialState notes) = slice_last 250 (received notes) /\
  (length (rrBuffer (run initialState notes)) <= 250)%nat /\
  exists forgotten,
    received notes = forgotten ++ rrBuffer (run initialState notes).
Proof.
  rewrite run_buffer. split; [reflexivity|]. split.
  - rewrite length_slice_last. lia.
  - exists (firstn (length (received notes) - 250) (received notes)).
    unfold slice_last. now rewrite firstn_skipn.
Qed.

(** One callback that leaves the buffer under the window width changes
    neither the value shown nor the history. *)
Lemma onData_waiting (now : Z) (st : AppState) (hr : N) (rr : list number) :
  (length (rrBuffer st) + length rr < 200)%nat ->
  currentAlpha1 (onData now st hr rr) = currentAlpha1 st /\
  history (onData now st hr rr) = history st.
Proof.
  intros H. unfold onData, DFA_WINDOW_WIDTH.
  destruct (0 <? length rr)%nat; [|split; reflexivity].
  assert (L : length (rrBuffer st ++ rr) = (length (rrBuffer st) + length rr)%nat)
    by apply length_app.
  assert (E1 : (200 + 50 <? length (rrBuffer st ++ rr))%nat = false)
    by (apply Nat.ltb_ge; lia).
  rewrite E1.
  assert (E2 : (200 <=? length (rrBuffer st ++ rr))%nat = false)
    by (apply Nat.leb_gt; lia).
  rewrite E2. split; reflexivity.
Qed.

(** X23. Until 200 intervals have been received nothing is computed: no
    value is shown and the history is empty. *)
Theorem nothing_before_200 (notes : list notification) :
  (length (received notes) < 200)%nat ->
  currentAlpha1 (run initialState notes) = None /\
  history (run initialState notes) = [].
Proof.
  induction notes as [|n notes IH] using rev_ind; intros H;
    [split; reflexivity|].
  rewrite received_app, received_one, length_app in H.
  destruct (IH ltac:(lia)) as [I1 I2].
  rewrite run_app. cbn [run fold_left]. fold (run initialState notes).
  destruct (onData_waiting (at_time n) (run initialState notes)
              (note_hr n) (note_rr n)) as [W1 W2].
  - rewrite run_buffer, length_slice_last. lia.
  - now rewrite W1, W2.
Qed.

Lemma nothing_before_200_witness :
  currentAlpha1 (run initialState [MkNote 0 60 (repeat (Fin 800) 199)]) = None /\
  history (run initialState [MkNote 0 60 (repeat (Fin 800) 199)]) = [].
Proof.
  apply nothing_before_200.
  unfold received. cbn [map concat note_rr].
  rewrite app_nil_r, repeat_length. lia.
Defined.

(** X24. From the 200th interval on, a notification that brings at least
    one interval runs [calculateDfaAlpha1] on the last 200 intervals
    received; its result replaces the value shown, and a [null] result
    leaves the previous value in place. *)
Theorem shown_value (notes : list notification) (n : notification) :
  note_rr n <> [] ->
  (200 <= length (received (notes ++ [n])))%nat ->
  currentAlpha1 (run initialState (notes ++ [n])) =
  match calculateDfaAlpha1 (slice_last 200 (received (notes ++ [n]))) with
  | Some alpha => Some alpha
  | None => currentAlpha1 (run initialState notes)
  end.
Proof.
  intros Hrr Hlen.
  assert (Hb : rrBuffer (run initialState (notes ++ [n]))
               = slice_last 250 (received (notes ++ [n])))
    by apply run_buffer.
  rewrite run_app in *. cbn [run fold_left] in *.
  fold (run initialState notes) in *.
  set (st := run initialState notes) in *.
  assert (Hst : (length (rrBuffer st) <= 250)%nat)
    by (unfold st; rewrite run_buffer, length_slice_last; lia).
  rewrite (onData_buffer _ _ _ _ Hst) in Hb.
  unfold onData, DFA_WINDOW_WIDTH.
  assert (E0 : (0 <? length (note_rr n))%nat = true)
    by (apply Nat.ltb_lt; destruct (note_rr n); [contradiction | simpl; lia]).
  rewrite E0.
  set (b := rrBuffer st ++ note_rr n) in *.
  assert (E : (if (200 + 50 <? length b)%nat
               then slice_last (200 + 50) b else b) = slice_last 250 b).
  { destruct (200 + 50 <? length b)%nat eqn:L; [reflexivity|].
    apply Nat.ltb_ge in L. now rewrite slice_last_all by lia. }
  rewrite E, Hb.
  assert (E2 : (200 <=? length (slice_last 250 (received (notes ++ [n]))))%nat
               = true)
    by (apply Nat.leb_le; rewrite length_slice_last; lia).
  rewrite E2, slice_last_slice_last by lia.
  now destruct (calculateDfaAlpha1 _).
Qed.

Lemma shown_value_witness :
  currentAlpha1 (run initialState ([] ++ [MkNote 0 60 (repeat (Fin 1400) 200)])) =
  match calculateDfaAlpha1
          (slice_last 200 (received ([] ++ [MkNote 0 60 (repeat (Fin 1400) 200)])))
  with
  | Some alpha => Some alpha
  | None => currentAlpha1 (run initialState [])
  end.
Proof.
  apply (shown_value [] (MkNote 0 60 (repeat (Fin 1400) 200))).
  - discriminate.
  - unfold received. cbn [app map concat note_rr].
    rewrite app_nil_r, repeat_length. lia.
Defined.

(** *** The history *)

Lemma spaced_app_one (h : list DFADataPoint.t) (p : DFADataPoint.t) :
  spaced h ->
  match nth_error h (length h - 1) with
  | Some last =>
      (DFADataPoint.timestamp p - DFADataPoint.timestamp last > 2000)%Z
  | None => True
  end ->
  spaced (h ++ [p]).
Proof.
  induction h as [|a h IH]; intros Hs Hlast; [exact I|].
  destruct h as [|b h].
  - cbn in Hlast |- *. split; [exact Hlast | exact I].
  - cbn [app spaced] in *. destruct Hs as [Hab Hs].
    split; [exact Hab|]. apply IH; [exact Hs|].
    replace (length (a :: b :: h) - 1)%nat with (S (length (b :: h) - 1))
      in Hlast by (simpl; lia).
    exact Hlast.
Qed.

Lemma recordPoint_spaced (now : Z) (alpha : number) (hr : N)
    (prev : list DFADataPoint.t) :
  spaced prev -> spaced (recordPoint now alpha hr prev).
Proof.
  intros Hs. unfold recordPoint.
  destruct (nth_error prev (length prev - 1)) as [last|] eqn:E.
  - destruct (now - DFADataPoint.timestamp last >? 2000)%Z eqn:G;
      [|exact Hs].
    apply spaced_app_one; [exact Hs|]. rewrite E. cbn. lia.
  - apply spaced_app_one; [exact Hs|]. now rewrite E.
Qed.

Lemma recordPoint_extends (now : Z) (alpha : number) (hr : N)
    (prev : list DFADataPoint.t) :
  exists added, recordPoint now alpha hr prev = prev ++ added.
Proof.
  unfold recordPoint.
  destruct (nth_error prev (length prev - 1)) as [last|];
    [destruct (now - DFADataPoint.timestamp last >? 2000)%Z|];
    try (eexists; reflexivity).
  exists []. now rewrite app_nil_r.
Qed.

Lemma onData_history (now : Z) (st : AppState) (hr : N) (rr : list number) :
  (spaced (history st) -> spaced (history (onData now st hr rr))) /\
  exists added, history (onData now st hr rr) = history st ++ added.
Proof.
  assert (Hid : exists added : list DFADataPoint.t,
            history st = history st ++ added)
    by (exists []; now rewrite app_nil_r).
  unfold onData.
  destruct (0 <? length rr)%nat; [|split; [auto | exact Hid]].
  destruct (DFA_WINDOW_WIDTH <=? _)%nat; [|split; [auto | exact Hid]].
  destruct (calculateDfaAlpha1 _) as [alpha|]; [|split; [auto | exact Hid]].
  cbn [history]. split.
  - apply recordPoint_spaced.
  - apply recordPoint_extends.
Qed.

(** X25. The history only grows at its end, and two successive points of
    it are always more than 2000 ms apart, whatever the clock does. *)
Theorem history_spaced (st : AppState) (notes : list notification) :
  spaced (history st) ->
  spaced (history (run st notes)) /\
  exists added, history (run st notes) = history st ++ added.
Proof.
  revert st. induction notes as [|n notes IH]; intros st Hs.
  - split; [exact Hs|]. exists []. now rewrite app_nil_r.
  - cbn [run fold_left].
    destruct (onData_history (at_time n) st (note_hr n) (note_rr n))
      as [H1 [a1 H2]].
    destruct (IH _ (H1 Hs)) as [I1 [a2 I2]].
    split; [exact I1|]. exists (a1 ++ a2).
    unfold run in I2. rewrite I2, H2. now rewrite app_assoc.
Qed.

Lemma history_spaced_witness :
  spaced (history (run initialState [MkNote 5 60 [Fin 800]])) /\
  exists added,
    history (run initialState [MkNote 5 60 [Fin 800]])
    = history initialState ++ added.
Proof.
  apply (history_spaced initialState [MkNote 5 60 [Fin 800]]). exact I.
Defined.

(** ** The gauge *)

Lemma clamp_range (v : R) : 0 <= Rmax 0 (Rmin (3 / 2) v) <= 3 / 2.
Proof.
  unfold Rmax, Rmin.
  destruct (Rle_dec (3 / 2) v); destruct (Rle_dec 0 _); lra.
Qed.

(** X26. Whatever number other than [NaN] the gauge is given, infinities
    included, the needle stays on the dial: the percentage is a real in
    [0, 100] and the angle a real in [90, 270] degrees; between 0 and 1.5
    the percentage is value / 1.5 * 100. *)
Theorem gauge_on_the_dial (value : number) :
  value <> NaN ->
  exists p : R,
    Gauge.percent value = Fin p /\ 0 <= p <= 100 /\
    Gauge.rotation value = Fin (p * (18 / 10) - 90 + 180) /\
    90 <= p * (18 / 10) - 90 + 180 <= 270 /\
    (forall v, value = Fin v -> 0 <= v <= 3 / 2 -> p = v / (3 / 2) * 100).
Proof.
  intros Hnan.
  assert (H : exists c : R, Gauge.clamped value = Fin c /\ 0 <= c <= 3 / 2 /\
              (forall v, value = Fin v -> 0 <= v <= 3 / 2 -> c = v)).
  { destruct value as [v| | |]; cbn.
    - exists (Rmax 0 (Rmin (3 / 2) v)). split; [reflexivity|].
      split; [apply clamp_range|].
      intros w E Hw. injection E as <-.
      unfold Rmax, Rmin.
      destruct (Rle_dec (3 / 2) v); destruct (Rle_dec 0 _); lra.
    - exists (Rmax 0 (3 / 2)). split; [reflexivity|].
      split; [|discriminate].
      unfold Rmax. destruct (Rle_dec 0 (3 / 2)); lra.
    - exists 0. split; [reflexivity|]. split; [lra | discriminate].
    - contradiction. }
  destruct H as [c [Ec [Hc Hv]]].
  exists (c / (3 / 2) * 100).
  unfold Gauge.rotation, Gauge.percent. rewrite Ec.
  rewrite div_Fin by lra. cbn [mul sub add].
  split; [reflexivity|]. split; [lra|]. split; [reflexivity|].
  split; [lra|]. intros v E Hr. now rewrite (Hv v E Hr).
Qed.

Lemma gauge_on_the_dial_witness :
  exists p : R,
    Gauge.percent PInf = Fin p /\ 0 <= p <= 100 /\
    Gauge.rotation PInf = Fin (p * (18 / 10) - 90 + 180) /\
    90 <= p * (18 / 10) - 90 + 180 <= 270 /\
    (forall v, PInf = Fin v -> 0 <= v <= 3 / 2 -> p = v / (3 / 2) * 100).
Proof. apply (gauge_on_the_dial PInf). discriminate. Defined.

(** X27. The status line splits the reals into four intervals: Anaerobic
    under 0.5, Grey Zone on [0.5, 0.65], At Threshold on (0.65, 0.85) and
    Aerobic Base from 0.85 on; for [NaN] every test fails and the text is
    Aerobic Base. *)
Theorem gauge_zones (v : R) :
  (v < 1 / 2 -> Gauge.statusText (Fin v) = Gauge.ANAEROBIC) /\
  (1 / 2 <= v <= 13 / 20 -> Gauge.statusText (Fin v) = Gauge.GREY_ZONE) /\
  (13 / 20 < v < 17 / 20 -> Gauge.statusText (Fin v) = Gauge.AT_THRESHOLD) /\
  (17 / 20 <= v -> Gauge.statusText (Fin v) = Gauge.AEROBIC_BASE) /\
  Gauge.statusText NaN = Gauge.AEROBIC_BASE.
Proof.
  unfold Gauge.statusText, Gauge.THRESHOLD_AEROBIC, Gauge.THRESHOLD_ANAEROBIC,
    gt.
  cbn [add sub lt].
  repeat split; try reflexivity; intros H; decide_cmp; reflexivity.
Qed.

(** ** The superseded validator *)

Lemma subsequence_refl (A : Type) (l : list A) : subsequence l l.
Proof. induction l; constructor; assumption. Qed.

Lemma subsequence_app_one (A : Type) (s l : list A) (a : A) :
  subsequence s l ->
  subsequence s (l ++ [a]) /\ subsequence (s ++ [a]) (l ++ [a]).
Proof.
  induction 1 as [|b s l H [IH1 IH2]|b s l H [IH1 IH2]]; cbn [app].
  - split; [apply subsequence_skip | apply subsequence_keep];
      apply subsequence_nil.
  - split; apply subsequence_skip; assumption.
  - split; apply subsequence_keep; assumption.
Qed.

Lemma superseded_step_cases (filtered : list number) (val : number) :
  Superseded.step filtered val = filtered \/
  (Superseded.step filtered val = filtered ++ [val] /\
   lt val (Fin 250) = false /\ gt val (Fin 2000) = false).
Proof.
  unfold Superseded.step.
  destruct (lt val (Fin 250)) eqn:E1; [now left|].
  destruct (gt val (Fin 2000)) eqn:E2; [now left|].
  cbn [orb].
  destruct (5 <? length filtered)%nat; [|now right].
  destruct (gt _ (Fin (3 / 10))); [now left | now right].
Qed.

Lemma superseded_fold (pre rest : list number) (filtered : list number) :
  subsequence filtered pre ->
  subsequence (fold_left Superseded.step rest filtered) (pre ++ rest).
Proof.
  revert pre filtered. induction rest as [|v rest IH]; intros pre filtered H.
  - now rewrite app_nil_r.
  - cbn [fold_left].
    replace (pre ++ v :: rest) with ((pre ++ [v]) ++ rest)
      by now rewrite <- app_assoc.
    apply IH.
    destruct (subsequence_app_one _ _ _ v H) as [S1 S2].
    destruct (superseded_step_cases filtered v) as [-> | [-> _]]; assumption.
Qed.

(** X28. The superseded validator never alters, adds or reorders a sample:
    its result is the input with some samples left out, whatever the
    input holds. *)
Theorem superseded_subsequence (rr : list number) :
  subsequence (Superseded.preprocessRR rr) rr.
Proof.
  unfold Superseded.preprocessRR.
  destruct (length rr <? 3)%nat; [apply subsequence_refl|].
  apply (superseded_fold [] rr []). constructor.
Qed.

Lemma superseded_fold_range (rest : list R) :
  forall kept : list R,
  Forall (fun r => 250 <= r <= 2000) kept ->
  exists out : list R,
    fold_left Superseded.step (map Fin rest) (map Fin kept) = map Fin out /\
    Forall (fun r => 250 <= r <= 2000) out.
Proof.
  induction rest as [|v rest IH]; intros kept Hk.
  - now exists kept.
  - cbn [map fold_left].
    destruct (superseded_step_cases (map Fin kept) (Fin v))
      as [-> | [-> [E1 E2]]].
    + now apply IH.
    + replace (map Fin kept ++ [Fin v]) with (map Fin (kept ++ [v]))
        by now rewrite map_app.
      apply IH. apply Forall_app. split; [exact Hk|].
      unfold gt in E2. cbn [lt] in E1, E2.
      apply Rltb_false_iff in E1, E2.
      constructor; [lra | constructor].
Qed.

(** X29. On at least three real samples, every sample the superseded
    validator keeps lies in [250, 2000]. *)
Theorem superseded_range (rs : list R) :
  (3 <= length rs)%nat ->
  exists out : list R,
    Superseded.preprocessRR (map Fin rs) = map Fin out /\
    Forall (fun r => 250 <= r <= 2000) out.
Proof.
  intros Hlen. unfold Superseded.preprocessRR.
  assert (E : (length (map Fin rs) <? 3)%nat = false)
    by (apply Nat.ltb_ge; rewrite length_map; lia).
  rewrite E. apply (superseded_fold_range rs []). constructor.
Qed.

Lemma superseded_range_witness :
  exists out : list R,
    Superseded.preprocessRR (map Fin [100; 800; 2500]) = map Fin out /\
    Forall (fun r => 250 <= r <= 2000) out.
Proof. apply (superseded_range [100; 800; 2500]). simpl. lia. Defined.
